(** * SentenceReader: keyword occurrences in PDF filings

    A shallow embedding of [SentenceReader.py].  The program downloads PDF
    documents, extracts their text, splits it into sentences with [re.split],
    looks every keyword up in every sentence with [re.search], and collects
    one table row per document together with a run-wide set of matching
    sentences.

    Layout of the development:
    - text as sequences of Unicode code points, with the character classes
      the [re] module and [str.strip] consult;
    - the fragment of [re] the program uses: pattern syntax, [re.escape],
      matching, [re.search] and [re.split];
    - [analyze_text_for_keywords];
    - the pipeline ([read_pdf_content], [process_filings]) over a trace of
      the effects it performs;
    - the rest of the program: the list files, the exports and [main];
    - the properties. *)

From Stdlib Require Import NArith Ascii String.
From stdpp Require Import gmap list pretty.

Local Open Scope N_scope.

(** ** Text *)

(** A Python [str] is a sequence of code points. *)
Abbreviation str := (list N).

(** Code points of an ASCII literal. *)
Definition cp (s : string) : str := N_of_ascii <$> list_ascii_of_string s.

Definition chr (a : ascii) : N := N_of_ascii a.

Arguments cp : simpl never.
Arguments chr : simpl never.

(** The part of the Unicode character database the program depends on,
    for code points outside ASCII: [str.isalnum], [str.isspace], and
    whether a pattern literal matches a character under [re.IGNORECASE]
    (consulted when at least one of the two is outside ASCII). *)
Class Unicode := {
  uni_isalnum : N → bool;
  uni_isspace : N → bool;
  uni_ignorecase : N → N → bool
}.

Definition in_range (lo hi c : N) : bool := (lo <=? c) && (c <=? hi).

Definition is_ascii (c : N) : bool := c <? 128.

Definition ascii_isalnum (c : N) : bool :=
  in_range 48 57 c || in_range 65 90 c || in_range 97 122 c.

(** Tab, line feed, vertical tab, form feed, carriage return, the four
    separators FS, GS, RS, US and the space. *)
Definition ascii_isspace (c : N) : bool :=
  in_range 9 13 c || in_range 28 31 c || (c =? 32).

Definition ascii_lower (c : N) : N :=
  if in_range 65 90 c then c + 32 else c.

Section Characters.
Context {U : Unicode}.

Definition isalnum (c : N) : bool :=
  if is_ascii c then ascii_isalnum c else uni_isalnum c.

Definition isspace (c : N) : bool :=
  if is_ascii c then ascii_isspace c else uni_isspace c.

(** [\w]: alphanumeric or underscore. *)
Definition is_word (c : N) : bool := isalnum c || (c =? 95).

(** A literal [p] of a pattern compiled with [re.IGNORECASE] against the
    character [c]. *)
Definition literal_ignore (p c : N) : bool :=
  if is_ascii p && is_ascii c then ascii_lower p =? ascii_lower c
  else uni_ignorecase p c.

(** [str.lstrip], [str.strip] without argument. *)
Fixpoint lstrip (s : str) : str :=
  match s with
  | c :: s' => if isspace c then lstrip s' else s
  | [] => []
  end.

Definition strip (s : str) : str := reverse (lstrip (reverse (lstrip s))).
End Characters.

(** ** The [re] fragment *)

(** Parsed patterns, named after the opcodes of [sre_parse].  The fragment
    covers what the two patterns of the program are made of: literals,
    [.], sets, the categories [\w] and [\s], [\b], fixed-width look-behind
    assertions over single characters, and [+] on a single character. *)
Inductive category := Category_Word | Category_Space.

Inductive set_item :=
| Set_Literal (c : N)
| Set_Range (lo hi : N)
| Set_Category (k : category).

Inductive atom :=
| Literal (c : N)
| Literal_Ignore (c : N)
| Any
| In_Set (items : list set_item).

Inductive node :=
| Atom (a : atom)
| At_Boundary
| Assert_Behind (negate : bool) (body : list atom)
| Max_Repeat1 (a : atom).

(** *** [re.escape] *)

(** The characters [re.escape] puts a backslash in front of. *)
Definition escaped_chars : str :=
  cp "()[]{}?*+-|^$\.&~# " ++ [9; 10; 13; 11; 12].

Definition mem (c : N) (s : str) : bool := existsb (N.eqb c) s.

Fixpoint re_escape (pattern : str) : str :=
  match pattern with
  | [] => []
  | c :: rest =>
      if mem c escaped_chars then chr "\" :: c :: re_escape rest
      else c :: re_escape rest
  end.

(** *** Pattern syntax *)

(** Characters with a meaning of their own in a pattern. *)
Definition special_chars : str := cp ".\[{()*+?^$|".

(** The inside of a set, up to the closing bracket.  Escapes and nested
    brackets are outside the fragment. *)
Fixpoint parse_set (s : str) : option (list set_item * str) :=
  match s with
  | [] => None
  | c :: s' =>
      if c =? chr "]" then Some ([], s')
      else if (c =? chr "\") || (c =? chr "[") then None
      else
        match s' with
        | d :: hi :: s'' =>
            if (d =? chr "-") && negb (hi =? chr "]") then
              if (hi =? chr "\") || (hi =? chr "[") || (hi <? c) then None
              else '(items, rest) ← parse_set s''; Some (Set_Range c hi :: items, rest)
            else '(items, rest) ← parse_set s'; Some (Set_Literal c :: items, rest)
        | _ => '(items, rest) ← parse_set s'; Some (Set_Literal c :: items, rest)
        end
  end.

(** One single-character item.  With [ignorecase] a literal becomes a
    case-insensitive literal; sets under [ignorecase] are outside the
    fragment. *)
Definition parse_atom (ignorecase : bool) (s : str) : option (atom * str) :=
  let lit c := if ignorecase then Literal_Ignore c else Literal c in
  match s with
  | [] => None
  | c :: s' =>
      if c =? chr "\" then
        match s' with
        | [] => None
        | e :: s'' =>
            if e =? chr "w" then Some (In_Set [Set_Category Category_Word], s'')
            else if e =? chr "s" then Some (In_Set [Set_Category Category_Space], s'')
            else if is_ascii e && ascii_isalnum e then None
            else Some (lit e, s'')
        end
      else if c =? chr "." then Some (Any, s')
      else if c =? chr "[" then
        match s' with
        | [] => None
        | f :: _ =>
            if ignorecase || (f =? chr "^") || (f =? chr "]") then None
            else '(items, rest) ← parse_set s'; Some (In_Set items, rest)
        end
      else if mem c special_chars then None
      else Some (lit c, s')
  end.

(** The body of a look-behind assertion, up to the closing parenthesis. *)
Fixpoint parse_atoms (fuel : nat) (ignorecase : bool) (s : str)
  : option (list atom * str) :=
  match fuel with
  | O => None
  | S fuel' =>
      match s with
      | [] => None
      | c :: s' =>
          if c =? chr ")" then Some ([], s')
          else
            '(a, rest) ← parse_atom ignorecase s;
            '(body, rest') ← parse_atoms fuel' ignorecase rest;
            Some (a :: body, rest')
      end
  end.

(** An atom and the repetition that may follow it.  Only a plain greedy
    [+] is in the fragment. *)
Definition parse_repeat (ignorecase : bool) (s : str) : option (node * str) :=
  '(a, rest) ← parse_atom ignorecase s;
  match rest with
  | [] => Some (Atom a, [])
  | q :: rest' =>
      if q =? chr "+" then
        match rest' with
        | [] => Some (Max_Repeat1 a, [])
        | q' :: _ =>
            if mem q' (cp "*+?{") then None else Some (Max_Repeat1 a, rest')
        end
      else if mem q (cp "*?{") then None
      else Some (Atom a, rest)
  end.

Definition parse_item (ignorecase : bool) (s : str) : option (node * str) :=
  match s with
  | c :: d :: s' =>
      if (c =? chr "\") && (d =? chr "b") then Some (At_Boundary, s')
      else if (c =? chr "(") then
        match s' with
        | lt :: m :: s'' =>
            if (d =? chr "?") && (lt =? chr "<") && (m =? chr "!") then
              '(body, rest) ← parse_atoms (S (length s'')) ignorecase s'';
              Some (Assert_Behind true body, rest)
            else if (d =? chr "?") && (lt =? chr "<") && (m =? chr "=") then
              '(body, rest) ← parse_atoms (S (length s'')) ignorecase s'';
              Some (Assert_Behind false body, rest)
            else None
        | _ => None
        end
      else parse_repeat ignorecase s
  | _ => parse_repeat ignorecase s
  end.

Fixpoint parse_items (fuel : nat) (ignorecase : bool) (s : str)
  : option (list node) :=
  match fuel with
  | O => None
  | S fuel' =>
      match s with
      | [] => Some []
      | _ :: _ =>
          '(n, rest) ← parse_item ignorecase s;
          ns ← parse_items fuel' ignorecase rest;
          Some (n :: ns)
      end
  end.

(** [re.compile]; [None] stands for [re.error] and for a pattern outside
    the fragment. *)
Definition re_compile (pattern : str) (ignorecase : bool) : option (list node) :=
  parse_items (S (length pattern)) ignorecase pattern.

(** *** Matching *)

Section Matching.
Context {U : Unicode}.

Definition category_matches (k : category) (ch : N) : bool :=
  match k with
  | Category_Word => is_word ch
  | Category_Space => isspace ch
  end.

Definition set_item_matches (ch : N) (it : set_item) : bool :=
  match it with
  | Set_Literal c => ch =? c
  | Set_Range lo hi => in_range lo hi ch
  | Set_Category k => category_matches k ch
  end.

(** [.] is compiled without [re.DOTALL]: anything but a line feed. *)
Definition atom_matches (a : atom) (ch : N) : bool :=
  match a with
  | Literal c => ch =? c
  | Literal_Ignore c => literal_ignore c ch
  | Any => negb (ch =? 10)
  | In_Set items => existsb (set_item_matches ch) items
  end.

(** A position in the subject is the text before it, nearest character
    first, and the text after it. *)
Definition word_at (s : str) : bool :=
  match s with
  | c :: _ => is_word c
  | [] => false
  end.

(** [\b]: exactly one of the two neighbours is a word character; the
    two ends of the subject count as non-word. *)
Definition at_boundary (before after : str) : bool :=
  xorb (word_at before) (word_at after).

Fixpoint match_atoms (body : list atom) (s : str) : bool :=
  match body, s with
  | [], _ => true
  | a :: body', ch :: s' => atom_matches a ch && match_atoms body' s'
  | _ :: _, [] => false
  end.

(** A look-behind steps back by the width of its body, when there is
    room, and matches the body from there. *)
Definition look_behind (body : list atom) (before : str) : bool :=
  let back := length body in
  (back <=? length before)%nat && match_atoms body (reverse (take back before)).

Fixpoint run_length (a : atom) (s : str) : nat :=
  match s with
  | ch :: s' => if atom_matches a ch then S (run_length a s') else O
  | [] => O
  end.

(** Greedy repetition: the continuation [k] is tried after [n]
    repetitions, then after fewer, down to one. *)
Fixpoint backtrack (k : nat → option nat) (n : nat) : option nat :=
  match n with
  | O => None
  | S n' =>
      match k n with
      | Some m => Some (n + m)%nat
      | None => backtrack k n'
      end
  end.

(** The pattern against the text at a position: the number of
    characters matched. *)
Fixpoint match_here (ns : list node) (before after : str) : option nat :=
  match ns with
  | [] => Some O
  | Atom a :: ns' =>
      match after with
      | ch :: after' =>
          if atom_matches a ch then S <$> match_here ns' (ch :: before) after'
          else None
      | [] => None
      end
  | At_Boundary :: ns' =>
      if at_boundary before after then match_here ns' before after else None
  | Assert_Behind negate body :: ns' =>
      if xorb negate (look_behind body before)
      then match_here ns' before after else None
  | Max_Repeat1 a :: ns' =>
      backtrack
        (λ n, match_here ns' (reverse (take n after) ++ before) (drop n after))
        (run_length a after)
  end.

(** Leftmost match at or after a position: the text passed over and the
    length of the match. *)
Fixpoint search (ns : list node) (before after : str) : option (str * nat) :=
  match match_here ns before after with
  | Some n => Some ([], n)
  | None =>
      match after with
      | [] => None
      | ch :: after' =>
          '(skipped, n) ← search ns (ch :: before) after';
          Some (ch :: skipped, n)
      end
  end.

(** [re.search(pattern, string, flags)] as a truth value. *)
Definition re_search (pattern : str) (s : str) (ignorecase : bool)
  : option bool :=
  ns ← re_compile pattern ignorecase;
  Some (bool_decide (is_Some (search ns [] s))).

(** The loop of [re.split]: the text between one match and the next is
    an item, the text after the last match is the last item.  An empty
    match is outside the fragment. *)
Fixpoint split_loop (fuel : nat) (ns : list node) (before after : str)
  : option (list str) :=
  match fuel with
  | O => None
  | S fuel' =>
      match search ns before after with
      | None => Some [after]
      | Some (skipped, n) =>
          let start := drop (length skipped) after in
          if (n =? 0)%nat then None
          else
            items ← split_loop fuel' ns
                      (reverse (take n start) ++ reverse skipped ++ before)
                      (drop n start);
            Some (skipped :: items)
      end
  end.

(** [re.split(pattern, string)]. *)
Definition re_split (pattern : str) (s : str) : option (list str) :=
  ns ← re_compile pattern false;
  split_loop (S (length s)) ns [] s.
End Matching.

(** ** [analyze_text_for_keywords] *)

Definition sentence_pattern : str :=
  cp "(?<!\w\.\w.)(?<![A-Z][a-z]\.)(?<=[.!?])\s+".

Definition keyword_pattern (keyword : str) : str :=
  cp "\b" ++ re_escape keyword ++ cp "\b".

Abbreviation spaces := (In_Set [Set_Category Category_Space]).

(** What the two patterns parse to. *)
Definition sentence_nodes : list node :=
  [Assert_Behind true
     [In_Set [Set_Category Category_Word]; Literal 46;
      In_Set [Set_Category Category_Word]; Any];
   Assert_Behind true
     [In_Set [Set_Range 65 90]; In_Set [Set_Range 97 122]; Literal 46];
   Assert_Behind false [In_Set [Set_Literal 46; Set_Literal 33; Set_Literal 63]];
   Max_Repeat1 spaces].

Definition keyword_nodes (keyword : str) : list node :=
  At_Boundary :: (Atom ∘ Literal_Ignore <$> keyword) ++ [At_Boundary].

(** The text does not start with a repetition operator. *)
Definition repeat_free (s : str) : bool :=
  match s with
  | q :: _ => negb (mem q (cp "*+?{"))
  | [] => true
  end.

(** The order in which [list(a_set)] enumerates a set is not specified by
    Python and varies with the hash seed; a run fixes one. *)
Class SetOrder := {
  set_to_list : gset str → list str;
  set_to_list_perm : ∀ X, set_to_list X ≡ₚ elements X
}.

Section Analyze.
Context {U : Unicode} {order : SetOrder}.

(** [for sentence in sentences]. *)
Fixpoint scan_sentences (keyword_pattern : str) (sentences : list str)
    (count : nat) (found_sentences_for_pdf : gset str)
  : option (nat * gset str) :=
  match sentences with
  | [] => Some (count, found_sentences_for_pdf)
  | sentence :: rest =>
      hit ← re_search keyword_pattern sentence true;
      if hit : bool then
        scan_sentences keyword_pattern rest (count + 1)%nat
          ({[strip sentence]} ∪ found_sentences_for_pdf)
      else scan_sentences keyword_pattern rest count found_sentences_for_pdf
  end.

(** [for keyword in keywords]. *)
Fixpoint scan_keywords (sentences : list str) (keywords : list str)
    (occurrences : gmap str nat) (found_sentences_for_pdf : gset str)
  : option (gmap str nat * gset str) :=
  match keywords with
  | [] => Some (occurrences, found_sentences_for_pdf)
  | keyword :: rest =>
      '(count, found) ←
        scan_sentences (keyword_pattern keyword) sentences O
          found_sentences_for_pdf;
      scan_keywords sentences rest
        (if (0 <? count)%nat then <[keyword := count]> occurrences
         else occurrences)
        found
  end.

Definition analyze_text_for_keywords (text : str) (keywords : list str)
  : option (gmap str nat * list str) :=
  sentences ← re_split sentence_pattern text;
  '(occurrences, found) ← scan_keywords sentences keywords ∅ ∅;
  Some (occurrences, set_to_list found).
End Analyze.

(** ** The pipeline *)

Definition MAX_RETRIES : nat := 2.
Definition RETRY_DELAY : nat := 5.

Abbreviation bytes := (list Byte.byte).

(** An exception, as the text its formatting gives. *)
Abbreviation exn := (list N).

(** What a run does to the outside, in order: a download
    ([urlopen] and [response.read]), handing the content to [fitz.open],
    [time.sleep], and a line appended to the error log by [log_error]
    (the time stamp that starts the line is left out).  Console output is
    not recorded. *)
Inductive event :=
| Request (url : str)
| Open_document (pdf_content : bytes)
| Sleep (seconds : nat)
| Log_error (url : str) (error_message : str).

(** The outside of the program: what a download answers, given what has
    happened so far; what PyMuPDF makes of a byte stream, a list of pages
    each with the outcome of [get_text]; and
    [unquote(os.path.basename(urlparse(url).path))], [None] when it
    raises. *)
Class World := {
  urlopen : list event → str → exn + bytes;
  fitz_open : bytes → exn + list (exn + str);
  url_basename : str → option str
}.

(** A cell of a result row: a text or a count. *)
Inductive cell := Text (s : str) | Count (n : nat).

Section Pipeline.
Context {U : Unicode} {order : SetOrder} {W : World}.

Definition extract_filename (url : str) : str :=
  match url_basename url with
  | Some filename => if bool_decide (filename = []) then cp "Unknown" else filename
  | None => cp "Unknown"
  end.

Definition log_error (url : str) (error_message : str) (log : list event)
  : list event :=
  log ++ [Log_error url error_message].

(** [for page in doc: text += page.get_text()]. *)
Fixpoint get_text (doc : list (exn + str)) (text : str) : exn + str :=
  match doc with
  | [] => inr text
  | inl e :: _ => inl e
  | inr page :: rest => get_text rest (text ++ page)
  end.

(** [fitz.open] and the loop over the pages. *)
Definition extract_text (pdf_content : bytes) : exn + str :=
  match fitz_open pdf_content with
  | inl e => inl e
  | inr doc => get_text doc []
  end.

(** The body of the [try]: download, then extraction. *)
Definition try_read (url : str) (tr : list event) : (exn + str) * list event :=
  match urlopen tr url with
  | inl e => (inl e, tr ++ [Request url])
  | inr pdf_content =>
      (extract_text pdf_content,
       tr ++ [Request url; Open_document pdf_content])
  end.

(** [f"Failed to read PDF after {MAX_RETRIES} attempts: {e}"]. *)
Definition failure_message (e : exn) : str :=
  cp "Failed to read PDF after " ++ cp (pretty MAX_RETRIES)
    ++ cp " attempts: " ++ e.

(** [for attempt in range(MAX_RETRIES)], over the attempts left. *)
Fixpoint read_attempts (url : str) (attempts : list nat) (tr : list event)
  : option str * list event :=
  match attempts with
  | [] => (None, tr)
  | attempt :: rest =>
      match try_read url tr with
      | (inr text, tr') => (Some text, tr')
      | (inl e, tr') =>
          if (attempt <? MAX_RETRIES - 1)%nat
          then read_attempts url rest (tr' ++ [Sleep RETRY_DELAY])
          else (None, log_error url (failure_message e) tr')
      end
  end.

Definition read_pdf_content (url : str) (tr : list event)
  : option str * list event :=
  read_attempts url (seq 0 MAX_RETRIES) tr.

(** [{"URL": url, "Name": display_name, **occurrences}]: a key of
    [occurrences] replaces a fixed key of the same name. *)
Definition keyword_row (url display_name : str) (occurrences : gmap str nat)
  : gmap str cell :=
  (Count <$> occurrences)
    ∪ {[ cp "URL" := Text url; cp "Name" := Text display_name ]}.

Definition empty_row (url display_name : str) : gmap str cell :=
  {[ cp "URL" := Text url; cp "Name" := Text display_name;
     cp "No Keywords Found" := Text (cp "No keywords found in this file.") ]}.

(** [for index, url in enumerate(urls)], from [index] on.  [None] is an
    exception that leaves [process_filings]. *)
Fixpoint process_urls (index : nat) (urls : list str) (keywords : list str)
    (company_names : option (list str))
    (results : list (gmap str cell)) (all_extracted_sentences : gset str)
    (tr : list event)
  : option (list (gmap str cell) * gset str * list event) :=
  match urls with
  | [] => Some (results, all_extracted_sentences, tr)
  | url :: rest =>
      let filename := extract_filename url in
      let display_name :=
        match company_names with
        | Some names =>
            if bool_decide (names ≠ []) && (index <? length names)%nat
            then default filename (names !! index) else filename
        | None => filename
        end in
      let '(text, tr') := read_pdf_content url tr in
      '(results', all') ←
        match text with
        | Some ((_ :: _) as text) =>
            '(occurrences, pdf_sentences) ←
              analyze_text_for_keywords text keywords;
            Some
              (results ++
                 [if bool_decide (occurrences ≠ ∅)
                  then keyword_row url display_name occurrences
                  else empty_row url display_name],
               all_extracted_sentences ∪ list_to_set pdf_sentences)
        | _ => Some (results, all_extracted_sentences)
        end;
      process_urls (S index) rest keywords company_names results' all'
        (tr' ++ [Sleep 1])
  end.

(** [[line.strip() for line in f if line.strip()]]. *)
Definition urls_of_file (url_file : list str) : list str :=
  filter (λ line, line ≠ []) (strip <$> url_file).

(** [process_filings], given the lines of [url_file]. *)
Definition process_filings (url_file : list str) (keywords : list str)
    (company_names : option (list str)) (tr : list event)
  : option (list (gmap str cell) * list str * list event) :=
  let urls := urls_of_file url_file in
  '(results, all_extracted_sentences, tr') ←
    process_urls 0 urls keywords company_names [] ∅ tr;
  Some (results, set_to_list all_extracted_sentences, tr').
End Pipeline.

(** ** Notions the properties are stated with *)

Section Notions.
Context {U : Unicode} {order : SetOrder} {W : World}.

(** In the spec's words, a sentence matches a keyword when "the literal
    appears as a whole word (word-boundary delimited) anywhere in the
    sentence, case-insensitively": the sentence is [l ++ w ++ r], [w] is
    the keyword up to case, and there is a word boundary on each side of
    [w]. *)
Definition equal_ignoring_case (keyword w : str) : Prop :=
  Forall2 (λ p c, literal_ignore p c = true) keyword w.

Definition ends_in_word (l : str) : bool := from_option is_word false (last l).

Definition starts_with_word (r : str) : bool := from_option is_word false (head r).

Definition word_boundary (l r : str) : Prop :=
  ends_in_word l ≠ starts_with_word r.

Definition whole_word_occurrence (keyword sentence : str) : Prop :=
  ∃ l w r, sentence = l ++ w ++ r ∧ equal_ignoring_case keyword w
           ∧ word_boundary l (w ++ r) ∧ word_boundary (l ++ w) r.

(** The sentences of a sequence in which the keyword is found, their
    number, and the set of them once stripped. *)
Definition sentences_with (keyword : str) (sentences : list str) : list str :=
  filter (λ s, re_search (keyword_pattern keyword) s true = Some true) sentences.

Definition sentence_count (keyword : str) (sentences : list str) : nat :=
  length (sentences_with keyword sentences).

Definition stripped_matches (keyword : str) (sentences : list str) : gset str :=
  list_to_set (strip <$> sentences_with keyword sentences).

(** A segmenter written out by hand: one pass over the text, cutting at a
    whitespace character that follows [.], [!] or [?] unless [suppressed]
    says the text before it ends in an abbreviation, and passing over the
    rest of the whitespace.  [before] is the text already read, nearest
    character first; [sentence] the current sentence, reversed. *)
Definition terminal (c : N) : bool := (c =? 46) || (c =? 33) || (c =? 63).

Definition splits_here (suppressed : str → bool) (before after : str) : bool :=
  match before, after with
  | p :: _, c :: _ => terminal p && isspace c && negb (suppressed before)
  | _, _ => false
  end.

Fixpoint segment_from (suppressed : str → bool) (before sentence : str)
    (skipping : bool) (after : str) : list str :=
  match after with
  | [] => [reverse sentence]
  | c :: rest =>
      if skipping && isspace c then
        segment_from suppressed (c :: before) [] true rest
      else if splits_here suppressed before after then
        reverse sentence :: segment_from suppressed (c :: before) [] true rest
      else segment_from suppressed (c :: before) (c :: sentence) false rest
  end.

(** What the two negative look-behinds of [sentence_pattern] exclude: a
    word character, a period, a word character and any character but a
    line feed; an upper-case letter of ASCII, a lower-case one and a
    period. *)
Definition initials_before (before : str) : bool :=
  match before with
  | d :: c :: p :: w :: _ =>
      is_word w && (p =? 46) && is_word c && negb (d =? 10)
  | _ => false
  end.

Definition title_before (before : str) : bool :=
  match before with
  | p :: l :: u :: _ => in_range 65 90 u && in_range 97 122 l && (p =? 46)
  | _ => false
  end.

Definition abbreviation_before (before : str) : bool :=
  initials_before before || title_before before.

Definition segment (text : str) : list str :=
  segment_from abbreviation_before [] [] false text.

(** The exceptions in the spec's words: "a single word-character followed
    by a period-letter-period sequence (e.g., U.S.), or a capitalized
    single-letter-plus-period pattern (e.g., A. Smith)". *)
Definition ascii_letter (c : N) : bool := in_range 65 90 c || in_range 97 122 c.

Definition spec_initials_before (before : str) : bool :=
  match before with
  | p' :: l :: p :: w :: _ =>
      is_word w && (p =? 46) && ascii_letter l && (p' =? 46)
  | _ => false
  end.

Definition spec_single_letter_before (before : str) : bool :=
  match before with
  | p :: u :: rest => in_range 65 90 u && (p =? 46) && negb (word_at rest)
  | _ => false
  end.

Definition spec_abbreviation_before (before : str) : bool :=
  spec_initials_before before || spec_single_letter_before before.

Definition spec_segment (text : str) : list str :=
  segment_from spec_abbreviation_before [] [] false text.

(** What [read_pdf_content] returns for each URL of a run, in order. *)
Fixpoint reads (urls : list str) (tr : list event) : list (option str) :=
  match urls with
  | [] => []
  | url :: rest =>
      let '(text, tr') := read_pdf_content url tr in
      text :: reads rest (tr' ++ [Sleep 1])
  end.

Definition is_log (e : event) : bool :=
  match e with Log_error _ _ => true | _ => false end.

Definition log_entries (tr : list event) : nat := length (filter is_log tr).

Definition is_request (e : event) : bool :=
  match e with Request _ => true | _ => false end.

Definition is_open (e : event) : bool :=
  match e with Open_document _ => true | _ => false end.

Definition has_text (text : option str) : bool :=
  match text with Some (_ :: _) => true | _ => false end.

Definition read_failed (text : option str) : bool :=
  match text with None => true | _ => false end.

Definition read_blank (text : option str) : bool :=
  match text with Some [] => true | _ => false end.
End Notions.

(** ** Concrete surroundings for the examples *)

Definition sample_url : str := cp "http://example.com/filing.pdf".

Definition other_url : str := cp "http://example.com/other.pdf".

(** A character database in which nothing outside ASCII is alphanumeric or
    white space, and case is only folded inside ASCII. *)
Definition basic_latin : Unicode :=
  {| uni_isalnum := λ _, false; uni_isspace := λ _, false;
     uni_ignorecase := N.eqb |}.

Definition sorted_order : SetOrder :=
  {| set_to_list := elements; set_to_list_perm := λ X, reflexivity (elements X) |}.

(** No download succeeds. *)
Definition offline : World :=
  {| urlopen := λ _ _, inl (cp "timed out");
     fitz_open := λ _, inr [];
     url_basename := λ _, None |}.

(** Every download gives the same bytes, which PyMuPDF cannot open. *)
Definition corrupt : World :=
  {| urlopen := λ _ _, inr [Byte.x25; Byte.x50];
     fitz_open := λ _, inl (cp "cannot open broken document");
     url_basename := λ _, None |}.

(** Every download gives a document of one page without text, as a scan
    does. *)
Definition scanned : World :=
  {| urlopen := λ _ _, inr [Byte.x25; Byte.x50; Byte.x44; Byte.x46];
     fitz_open := λ _, inr [inr []];
     url_basename := λ _, Some (cp "scan.pdf") |}.

(** Every download gives a document whose only page reads
    [The cat sat.] *)
Definition cat_report : World :=
  {| urlopen := λ _ _, inr [Byte.x25; Byte.x50; Byte.x44; Byte.x46];
     fitz_open := λ _, inr [inr (cp "The cat sat.")];
     url_basename := λ _, Some (cp "cat.pdf") |}.


(** ** The rest of the program: files, exports, [main] *)

Definition KEYWORDS_FILE : string := "keywords.txt".
Definition INPUT_URL_FILE : string := "pdf_urls.txt".
Definition COMPANY_NAMES_FILE : string := "company_names.txt".
Definition OUTPUT_EXCEL_FILE : string := "WebScraper_PDF.xlsx".
Definition OUTPUT_CSV_FILE : string := "WebScraper_PDF.csv".
Definition SENTENCES_OUTPUT_FILE : string := "KeywordSentences_PDF.txt".

(** What opening and reading a file raises: [FileNotFoundError], or any
    other exception. *)
Inductive io_error := File_not_found (e : exn) | Other_error (e : exn).

Definition error_text (err : io_error) : exn :=
  match err with File_not_found e | Other_error e => e end.

(** The file system: the lines [for line in f] gives for a path, or the
    exception of [open] or of reading; what building the [DataFrame] and
    [to_excel] raise, if anything; what [to_csv] raises; what opening a
    file for writing and writing a text into it raises. *)
Class Files := {
  read_lines : string → io_error + list str;
  to_excel : string → list (gmap str cell) → option exn;
  to_csv : string → list (gmap str cell) → option exn;
  write_text : string → str → option exn
}.

(** A file written in full.  A write that raises may leave a part of the
    file behind; that is not recorded. *)
Inductive output :=
| Excel_written (file : string) (rows : list (gmap str cell))
| Csv_written (file : string) (rows : list (gmap str cell))
| Text_written (file : string) (content : str).

(** How [main] ends: [exit()] for want of keywords, the last line, or an
    exception nobody catches. *)
Inductive ending := Exit_no_keywords | Completed | Uncaught.

Section Program.
Context {U : Unicode} {order : SetOrder} {W : World} {F : Files}.

(** [[line.strip() for line in f if line.strip()]]. *)
Definition stripped_lines (lines : list str) : list str :=
  filter (λ line, line ≠ []) (strip <$> lines).

Definition extract_keywords (keywords_file : string) (tr : list event)
  : list str * list event :=
  match read_lines keywords_file with
  | inr lines => (stripped_lines lines, tr)
  | inl err =>
      ([], log_error (cp "N/A")
             (cp "Error reading keywords: " ++ error_text err) tr)
  end.

Definition read_company_names (names_file : string) (tr : list event)
  : list str * list event :=
  match read_lines names_file with
  | inr lines => (stripped_lines lines, tr)
  | inl (File_not_found _) => ([], tr)
  | inl (Other_error e) =>
      ([], log_error (cp "N/A") (cp "Error reading company names: " ++ e) tr)
  end.

(** [process_filings] from the name of the URL file; an exception of
    [open] is not caught. *)
Definition process_filings_from (url_file : string) (keywords : list str)
    (company_names : option (list str)) (tr : list event)
  : option (list (gmap str cell) * list str * list event) :=
  match read_lines url_file with
  | inl _ => None
  | inr lines => process_filings lines keywords company_names tr
  end.

Definition save_results (results : list (gmap str cell))
    (excel_file csv_file : string) (tr : list event) (out : list output)
  : list event * list output :=
  if bool_decide (results = []) then (tr, out)
  else
    match to_excel excel_file results with
    | Some e =>
        (log_error (cp "N/A") (cp "Error saving results: " ++ e) tr, out)
    | None =>
        match to_csv csv_file results with
        | Some e =>
            (log_error (cp "N/A") (cp "Error saving results: " ++ e) tr,
             out ++ [Excel_written excel_file results])
        | None =>
            (tr, out ++ [Excel_written excel_file results;
                         Csv_written csv_file results])
        end
    end.

(** [for sentence in sentences: f.write(sentence + "\n")]. *)
Definition sentence_lines (sentences : list str) : str :=
  concat ((λ sentence, sentence ++ [10]) <$> sentences).

Definition save_sentences_to_file (sentences : list str) (output_file : string)
    (tr : list event) (out : list output) : list event * list output :=
  if bool_decide (sentences = []) then (tr, out)
  else
    match write_text output_file (sentence_lines sentences) with
    | Some e =>
        (log_error (cp "N/A") (cp "Error saving sentences: " ++ e) tr, out)
    | None => (tr, out ++ [Text_written output_file (sentence_lines sentences)])
    end.

(** The script under [if __name__ == "__main__"]. *)
Definition main (tr : list event) : ending * list event * list output :=
  let '(keywords, tr1) := extract_keywords KEYWORDS_FILE tr in
  if bool_decide (keywords = []) then (Exit_no_keywords, tr1, [])
  else
    let '(company_names, tr2) := read_company_names COMPANY_NAMES_FILE tr1 in
    match process_filings_from INPUT_URL_FILE keywords (Some company_names) tr2
    with
    | None => (Uncaught, tr2, [])
    | Some (results_for_df, extracted_sentences, tr3) =>
        let '(tr4, out1) :=
          save_results results_for_df OUTPUT_EXCEL_FILE OUTPUT_CSV_FILE tr3 [] in
        let '(tr5, out2) :=
          save_sentences_to_file extracted_sentences SENTENCES_OUTPUT_FILE
            tr4 out1 in
        (Completed, tr5, out2)
    end.
End Program.


(** The first download fails, the later ones give a document whose only
    page reads [The cat sat.] *)
Definition flaky : World :=
  {| urlopen := λ tr _,
       match tr with
       | [] => inl (cp "connection reset")
       | _ :: _ => inr [Byte.x25; Byte.x50; Byte.x44; Byte.x46]
       end;
     fitz_open := λ _, inr [inr (cp "The cat sat.")];
     url_basename := λ _, Some (cp "cat.pdf") |}.

(** No file can be read; every file can be written. *)
Definition no_files : Files :=
  {| read_lines := λ _, inl (File_not_found (cp "No such file or directory"));
     to_excel := λ _ _, None;
     to_csv := λ _ _, None;
     write_text := λ _ _, None |}.

(** ** Further notions *)

Section More_notions.
Context {U : Unicode}.

(** No white space at an end of a text, given its first or last
    character. *)
Definition no_space_at (c : option N) : Prop :=
  from_option isspace false c = false.

(** A text that is not empty and neither starts nor ends with white
    space. *)
Definition trimmed (s : str) : Prop :=
  s ≠ [] ∧ no_space_at (head s) ∧ no_space_at (last s).

(** A text of white space only. *)
Definition blank (s : str) : bool := forallb isspace s.

(** A text that ends in [.], [!] or [?]. *)
Definition ends_sentence (s : str) : Prop :=
  from_option terminal false (last s) = true.

(** The shape of what the segmenter gives: the sentences but the last end
    in [.], [!] or [?]; the sentences after the first, or all of them when
    [fresh], do not start with white space. *)
Definition well_cut (fresh : bool) (sentences : list str) : Prop :=
  ∃ init final,
    sentences = init ++ [final]
    ∧ Forall ends_sentence init
    ∧ Forall (λ s, no_space_at (head s))
        (if fresh then sentences else tail sentences).
End More_notions.

(** The number of events of a kind in a trace; the two kinds of
    [time.sleep]. *)
Definition count_of (p : event → bool) (events : list event) : nat :=
  length (filter p events).

Definition is_retry_sleep (e : event) : bool :=
  match e with Sleep n => (n =? RETRY_DELAY)%nat | _ => false end.

Definition is_pause (e : event) : bool :=
  match e with Sleep n => (n =? 1)%nat | _ => false end.

Section Run_notions.
Context {W : World}.

(** The display name of the URL at [index]: the company name at that
    index when there is one, the file name of the URL otherwise. *)
Definition resolved_name (company_names : option (list str)) (index : nat)
    (url : str) : str :=
  default (extract_filename url) (company_names ≫= (.!! index)).

(** The URLs of a run from [index] on, each with its index and with what
    [read_pdf_content] returns for it. *)
Fixpoint documents_from (index : nat) (urls : list str) (tr : list event)
  : list (nat * str * option str) :=
  match urls with
  | [] => []
  | url :: rest =>
      let '(text, tr') := read_pdf_content url tr in
      (index, url, text) :: documents_from (S index) rest (tr' ++ [Sleep 1])
  end.
End Run_notions.


(** * Properties *)

(** ** Parsing the keyword pattern *)

(** Character and string literals as numbers. *)
Ltac eval_chars :=
  repeat match goal with
    | |- context [chr ?a] =>
        let v := eval vm_compute in (chr a) in change (chr a) with v
    | |- context [cp ?s] =>
        let v := eval vm_compute in (cp s) in change (cp s) with v
    | H : context [chr ?a] |- _ =>
        let v := eval vm_compute in (chr a) in change (chr a) with v in H
    | H : context [cp ?s] |- _ =>
        let v := eval vm_compute in (cp s) in change (cp s) with v in H
    end.

(** Membership in a constant string. *)
Lemma mem_true c s : mem c s = true → c ∈ s.
Proof.
  unfold mem. rewrite existsb_exists. intros (x & Hx & Heq).
  apply N.eqb_eq in Heq. subst. by apply list_elem_of_In.
Qed.

Lemma parse_repeat_plain ic s a tail :
  parse_atom ic s = Some (a, tail) → repeat_free tail = true →
  parse_repeat ic s = Some (Atom a, tail).
Proof.
  intros Ha Ht. unfold parse_repeat. rewrite Ha. cbn.
  destruct tail as [|q tail']; [done|]. unfold repeat_free in Ht.
  eval_chars. cbn in Ht |- *.
  rewrite !negb_true_iff, !orb_false_iff in Ht.
  destruct Ht as (H1 & H2 & H3 & H4 & _). by rewrite H1, H2, H3, H4.
Qed.

Lemma parse_item_escaped c tail :
  mem c escaped_chars = true → repeat_free tail = true →
  parse_item true (chr "\" :: c :: tail) = Some (Atom (Literal_Ignore c), tail).
Proof.
  intros Hc Ht. apply mem_true in Hc.
  unfold escaped_chars in Hc. eval_chars. cbn in Hc.
  repeat (apply elem_of_cons in Hc as [->|Hc];
          [by apply (parse_repeat_plain true) |]).
  by apply elem_of_nil in Hc.
Qed.

Lemma parse_item_plain c tail :
  mem c escaped_chars = false → repeat_free tail = true →
  parse_item true (c :: tail) = Some (Atom (Literal_Ignore c), tail).
Proof.
  intros Hc Ht. unfold escaped_chars in Hc. eval_chars.
  cbn in Hc. rewrite !orb_false_iff in Hc.
  destruct Hc as (Hlp & Hrp & Hlb & Hrb & Hlc & Hrc & Hq & Hstar & Hplus & Hminus
                  & Hbar & Hhat & Hdollar & Hbs & Hdot & Hrest).
  assert (parse_atom true (c :: tail) = Some (Literal_Ignore c, tail)) as Ha.
  { unfold parse_atom, special_chars. eval_chars. cbn.
    by rewrite Hbs, Hdot, Hlb, Hlc, Hlp, Hrp, Hstar, Hplus, Hq, Hhat, Hdollar, Hbar. }
  unfold parse_item. destruct tail as [|d tail'].
  - by apply parse_repeat_plain.
  - eval_chars. rewrite Hbs, Hlp. cbn [andb]. by apply parse_repeat_plain.
Qed.

Lemma repeat_free_escape keyword tail :
  repeat_free tail = true → repeat_free (re_escape keyword ++ tail) = true.
Proof.
  intros Ht. destruct keyword as [|c rest]; [done|]. cbn [re_escape].
  destruct (mem c escaped_chars) eqn:Hc; [done|].
  unfold escaped_chars in Hc. unfold repeat_free. eval_chars.
  cbn in Hc |- *. rewrite !orb_false_iff in Hc.
  destruct Hc as (_ & _ & _ & _ & Hlc & _ & Hq & Hstar & Hplus & _).
  by rewrite Hstar, Hplus, Hq, Hlc.
Qed.

Lemma parse_items_S fuel ic c s :
  parse_items (S fuel) ic (c :: s)
  = '(n, rest) ← parse_item ic (c :: s);
    ns ← parse_items fuel ic rest; Some (n :: ns).
Proof. reflexivity. Qed.

#[local] Arguments parse_items : simpl never.
#[local] Arguments reverse : simpl never.
#[local] Set Warnings "-clear-no-such-hyp".

Lemma parse_items_more fuel s ns :
  parse_items fuel true s = Some ns → parse_items (S fuel) true s = Some ns.
Proof.
  revert s ns. induction fuel as [|fuel IH]; intros s ns; [done|].
  destruct s as [|c s']; [done|]. rewrite !parse_items_S.
  destruct (parse_item true (c :: s')) as [[n rest]|]; [|done]. cbn.
  destruct (parse_items fuel true rest) as [ns'|] eqn:Hrest; [|done].
  by rewrite (IH _ _ Hrest).
Qed.

Lemma parse_items_escape keyword fuel tail ns :
  repeat_free tail = true →
  parse_items fuel true tail = Some ns →
  parse_items (length (re_escape keyword) + fuel) true (re_escape keyword ++ tail)
  = Some ((Atom ∘ Literal_Ignore <$> keyword) ++ ns).
Proof.
  intros Ht Hns. induction keyword as [|c rest IH]; [done|].
  assert (repeat_free (re_escape rest ++ tail) = true) as Hfree
    by by apply repeat_free_escape.
  cbn [re_escape]. destruct (mem c escaped_chars) eqn:Hc.
  - cbn [length Nat.add app]. apply parse_items_more.
    rewrite parse_items_S, parse_item_escaped by done. cbn. by rewrite IH.
  - cbn [length Nat.add app]. rewrite parse_items_S, parse_item_plain by done.
    cbn. by rewrite IH.
Qed.

Lemma compile_keyword_pattern keyword :
  re_compile (keyword_pattern keyword) true = Some (keyword_nodes keyword).
Proof.
  unfold re_compile, keyword_pattern, keyword_nodes.
  rewrite !length_app. change (length (cp "\b")) with 2%nat.
  do 2 apply parse_items_more.
  change (cp "\b" ++ re_escape keyword ++ cp "\b")
    with (chr "\" :: chr "b" :: re_escape keyword ++ cp "\b").
  rewrite parse_items_S.
  assert (parse_item true (chr "\" :: chr "b" :: re_escape keyword ++ cp "\b")
          = Some (At_Boundary, re_escape keyword ++ cp "\b")) as -> by done.
  cbn. by rewrite (parse_items_escape keyword 2 (cp "\b") [At_Boundary]).
Qed.

Lemma compile_sentence_pattern :
  re_compile sentence_pattern false = Some sentence_nodes.
Proof. reflexivity. Qed.

(** ** Matching the keyword pattern *)

Section Keyword_matching.
Context {U : Unicode}.

Lemma match_here_literals kw ns before after :
  match_here ((Atom ∘ Literal_Ignore <$> kw) ++ ns) before after =
  if match_atoms (Literal_Ignore <$> kw) after
  then (λ n, length kw + n)%nat
         <$> match_here ns (reverse (take (length kw) after) ++ before)
               (drop (length kw) after)
  else None.
Proof.
  revert before after. induction kw as [|c kw IH]; intros before after.
  - cbn. rewrite take_0, drop_0, reverse_nil. cbn.
    by destruct (match_here ns before after).
  - destruct after as [|ch after]; [done|]. cbn.
    destruct (literal_ignore c ch); [|done]. cbn. rewrite IH.
    destruct (match_atoms _ after); [|done].
    rewrite reverse_cons, <- app_assoc. cbn.
    by destruct (match_here ns _ _).
Qed.

Lemma match_atoms_literals kw after :
  match_atoms (Literal_Ignore <$> kw) after = true ↔
  ∃ w r, after = w ++ r ∧ equal_ignoring_case kw w.
Proof.
  revert after. induction kw as [|c kw IH]; intros after.
  - split; [|done]. intros _. exists [], after. split; [done|]. constructor.
  - destruct after as [|ch after]; cbn.
    + split; [done|]. intros (w & r & Heq & Hw).
      inversion Hw; subst. done.
    + rewrite andb_true_iff, IH. split.
      * intros (Hc & w & r & -> & Hw). exists (ch :: w), r.
        split; [done|]. by constructor.
      * intros (w & r & Heq & Hw). inversion Hw as [|? c' ? w' Hc Hw']; subst.
        injection Heq as -> ->. eauto.
Qed.

Lemma equal_ignoring_case_length kw w :
  equal_ignoring_case kw w → length w = length kw.
Proof. intros Hw. symmetry. by eapply Forall2_length. Qed.

Lemma word_at_reverse l : word_at (reverse l) = ends_in_word l.
Proof.
  unfold ends_in_word. rewrite <- head_reverse.
  by destruct (reverse l).
Qed.

Lemma word_at_head r : word_at r = starts_with_word r.
Proof. by destruct r. Qed.

Lemma at_boundary_spec l r :
  at_boundary (reverse l) r = true ↔ word_boundary l r.
Proof.
  unfold at_boundary, word_boundary. rewrite word_at_reverse, word_at_head.
  destruct (ends_in_word l), (starts_with_word r); cbn; naive_solver.
Qed.

Lemma match_keyword_here kw l after :
  is_Some (match_here (keyword_nodes kw) (reverse l) after) ↔
  ∃ w r, after = w ++ r ∧ equal_ignoring_case kw w
         ∧ word_boundary l (w ++ r) ∧ word_boundary (l ++ w) r.
Proof.
  unfold keyword_nodes. cbn [match_here]. split.
  - destruct (at_boundary (reverse l) after) eqn:Hb; [|by intros [? ?]].
    rewrite match_here_literals.
    destruct (match_atoms _ after) eqn:Hm; [|by intros [? ?]].
    apply match_atoms_literals in Hm as (w & r & -> & Hw).
    rewrite <- (equal_ignoring_case_length _ _ Hw).
    rewrite take_app_length, drop_app_length. cbn [match_here].
    rewrite <- reverse_app.
    destruct (at_boundary (reverse (l ++ w)) r) eqn:Hb'; [|by intros [? ?]].
    intros _. exists w, r. by rewrite <- !at_boundary_spec.
  - intros (w & r & -> & Hw & Hb & Hb').
    apply at_boundary_spec in Hb, Hb'. rewrite Hb, match_here_literals.
    assert (match_atoms (Literal_Ignore <$> kw) (w ++ r) = true) as ->
      by (apply match_atoms_literals; eauto).
    rewrite <- (equal_ignoring_case_length _ _ Hw).
    rewrite take_app_length, drop_app_length. cbn [match_here].
    rewrite <- reverse_app, Hb'. done.
Qed.

Lemma search_is_Some ns before after :
  is_Some (search ns before after) ↔
  ∃ l r, after = l ++ r ∧ is_Some (match_here ns (reverse l ++ before) r).
Proof.
  revert before. induction after as [|ch after IH]; intros before; cbn.
  - destruct (match_here ns before []) eqn:Hm.
    + split; [|done]. intros _. exists [], []. rewrite reverse_nil. cbn. by rewrite Hm.
    + split; [by intros [? ?]|]. intros (l & r & Heq & Hl).
      symmetry in Heq. apply app_eq_nil in Heq as [-> ->].
      rewrite reverse_nil in Hl. cbn in Hl. rewrite Hm in Hl. by destruct Hl.
  - destruct (match_here ns before (ch :: after)) eqn:Hm.
    + split; [|done]. intros _. exists [], (ch :: after).
      rewrite reverse_nil. cbn. by rewrite Hm.
    + split.
      * intros Hs.
        assert (is_Some (search ns (ch :: before) after)) as Hs'.
        { destruct (search ns (ch :: before) after); [done|].
          cbn in Hs. by destruct Hs. }
        apply IH in Hs' as (l & r & -> & Hl). exists (ch :: l), r.
        split; [done|]. by rewrite reverse_cons, <- app_assoc.
      * intros (l & r & Heq & Hl). destruct l as [|c l].
        { rewrite reverse_nil in Hl. cbn in Heq, Hl. subst r.
          rewrite Hm in Hl. by destruct Hl. }
        injection Heq as -> ->.
        assert (is_Some (search ns (c :: before) (l ++ r))) as [[sk n] ->]; [|done].
        apply IH. exists l, r. split; [done|].
        by rewrite reverse_cons, <- app_assoc in Hl.
Qed.

Lemma search_keyword kw sentence :
  is_Some (search (keyword_nodes kw) [] sentence) ↔
  whole_word_occurrence kw sentence.
Proof.
  rewrite search_is_Some. unfold whole_word_occurrence. split.
  - intros (l & after & -> & Hm). rewrite app_nil_r in Hm.
    apply match_keyword_here in Hm as (w & r & -> & ?). exists l, w, r. done.
  - intros (l & w & r & -> & ?). exists l, (w ++ r). split; [done|].
    rewrite app_nil_r. apply match_keyword_here. exists w, r. done.
Qed.

Lemma re_search_keyword kw sentence :
  re_search (keyword_pattern kw) sentence true
  = Some (bool_decide (is_Some (search (keyword_nodes kw) [] sentence))).
Proof. unfold re_search. by rewrite compile_keyword_pattern. Qed.
End Keyword_matching.

(** ** Splitting into sentences *)

Section Segmenting.
Context {U : Unicode}.

(** The three look-behinds of [sentence_pattern], written out. *)
Lemma look_behind_initials before :
  look_behind
    [In_Set [Set_Category Category_Word]; Literal 46;
     In_Set [Set_Category Category_Word]; Any] before
  = initials_before before.
Proof.
  destruct before as [|d [|c [|p [|w rest]]]]; try reflexivity.
  cbv -[N.eqb is_word].
  destruct (is_word w), (p =? 46), (is_word c), (d =? 10); reflexivity.
Qed.

Lemma look_behind_title before :
  look_behind [In_Set [Set_Range 65 90]; In_Set [Set_Range 97 122]; Literal 46]
    before
  = title_before before.
Proof.
  destruct before as [|p [|l [|u rest]]]; try reflexivity.
  cbv -[N.eqb in_range].
  destruct (in_range 65 90 u), (in_range 97 122 l), (p =? 46); reflexivity.
Qed.

Lemma look_behind_terminal before :
  look_behind [In_Set [Set_Literal 46; Set_Literal 33; Set_Literal 63]] before
  = match before with p :: _ => terminal p | [] => false end.
Proof.
  destruct before as [|p rest]; [reflexivity|].
  cbv -[N.eqb].
  destruct (p =? 46), (p =? 33), (p =? 63); reflexivity.
Qed.

Lemma backtrack_last n : backtrack (λ _, Some O) n = if n is O then None else Some n.
Proof. destruct n; [done|]. cbn. by rewrite Nat.add_0_r. Qed.

Lemma run_length_spaces after :
  run_length spaces after
  = match after with
    | c :: rest => if isspace c then S (run_length spaces rest) else O
    | [] => O
    end.
Proof.
  destruct after as [|c rest]; [done|]. cbn. by destruct (isspace c).
Qed.

Lemma match_here_sentence before after :
  match_here sentence_nodes before after
  = if splits_here abbreviation_before before after
    then Some (run_length spaces after) else None.
Proof.
  unfold sentence_nodes. cbn [match_here].
  rewrite look_behind_initials, look_behind_title, look_behind_terminal.
  rewrite backtrack_last. unfold splits_here, abbreviation_before.
  destruct before as [|p before'].
  { by destruct (initials_before []), (title_before []). }
  destruct (initials_before (p :: before')), (title_before (p :: before'));
    cbn [xorb negb orb]; destruct (terminal p); cbn [andb]; try (by destruct after);
    destruct after as [|c rest]; try done;
    rewrite run_length_spaces; by destruct (isspace c).
Qed.

(** After a separator has started, the rest of the whitespace is passed
    over. *)
Lemma segment_from_skip suppressed after : ∀ before,
  segment_from suppressed before [] true after
  = segment_from suppressed
      (reverse (take (run_length spaces after) after) ++ before) [] false
      (drop (run_length spaces after) after).
Proof.
  induction after as [|c rest IH]; intros before; [done|].
  rewrite run_length_spaces. cbn [segment_from andb].
  destruct (isspace c) eqn:Hc.
  - rewrite IH. cbn [take drop]. by rewrite reverse_cons, <- app_assoc.
  - cbn [take drop]. rewrite reverse_nil. cbn [app segment_from andb]. done.
Qed.

(** Where [search] finds the separator, the hand-written segmenter cuts. *)
Lemma segment_from_search after : ∀ before sentence,
  segment_from abbreviation_before before sentence false after
  = match search sentence_nodes before after with
    | None => [reverse sentence ++ after]
    | Some (skipped, n) =>
        let start := drop (length skipped) after in
        (reverse sentence ++ skipped)
          :: segment_from abbreviation_before
               (reverse (take n start) ++ reverse skipped ++ before) [] false
               (drop n start)
    end.
Proof.
  induction after as [|c rest IH]; intros before sentence.
  - cbn [search]. rewrite match_here_sentence.
    assert (splits_here abbreviation_before before [] = false) as ->
      by by destruct before.
    by rewrite app_nil_r.
  - cbn [search segment_from andb]. rewrite match_here_sentence.
    destruct (splits_here abbreviation_before before (c :: rest)) eqn:Hs.
    + assert (isspace c = true) as Hc.
      { unfold splits_here in Hs. destruct before; [done|].
        by destruct (terminal _), (isspace c). }
      cbn [length drop]. rewrite reverse_nil, app_nil_r. cbn [app]. f_equal.
      rewrite <- segment_from_skip. cbn [segment_from andb]. by rewrite Hc.
    + rewrite IH. destruct (search sentence_nodes (c :: before) rest)
        as [[skipped n]|]; cbn.
      * rewrite !reverse_cons, <- !app_assoc. done.
      * by rewrite reverse_cons, <- app_assoc.
Qed.

Lemma search_Some ns after : ∀ before skipped n,
  search ns before after = Some (skipped, n) →
  ∃ r, after = skipped ++ r ∧ match_here ns (reverse skipped ++ before) r = Some n.
Proof.
  induction after as [|c rest IH]; intros before skipped n; cbn [search].
  - destruct (match_here ns before []) eqn:Hm; [|done].
    intros [= <- <-]. exists []. by rewrite reverse_nil.
  - destruct (match_here ns before (c :: rest)) eqn:Hm.
    + intros [= <- <-]. exists (c :: rest). by rewrite reverse_nil.
    + destruct (search ns (c :: before) rest) as [[sk m]|] eqn:Hs; [|done].
      cbn. intros [= <- <-]. apply IH in Hs as (r & -> & Hr).
      exists r. by rewrite reverse_cons, <- app_assoc.
Qed.

Lemma run_length_le a after : (run_length a after ≤ length after)%nat.
Proof.
  induction after as [|c rest IH]; cbn; [lia|].
  destruct (atom_matches a c); cbn; lia.
Qed.

Lemma search_sentence_Some before after skipped n :
  search sentence_nodes before after = Some (skipped, n) →
  (1 ≤ n ∧ length skipped + n ≤ length after)%nat.
Proof.
  intros Hs. apply search_Some in Hs as (r & -> & Hm).
  rewrite match_here_sentence in Hm.
  destruct (splits_here _ _ r) eqn:Hsplit; [|done]. injection Hm as <-.
  rewrite length_app. pose proof (run_length_le spaces r).
  split; [|lia]. unfold splits_here in Hsplit.
  destruct (reverse skipped ++ before); [done|]. destruct r as [|c r']; [done|].
  rewrite run_length_spaces.
  destruct (isspace c); [lia|]. by rewrite andb_false_r in Hsplit.
Qed.

Lemma split_loop_segment fuel : ∀ before after,
  (length after < fuel)%nat →
  split_loop fuel sentence_nodes before after
  = Some (segment_from abbreviation_before before [] false after).
Proof.
  induction fuel as [|fuel IH]; intros before after Hfuel; [lia|].
  cbn [split_loop]. rewrite segment_from_search.
  destruct (search sentence_nodes before after) as [[skipped n]|] eqn:Hs.
  - apply search_sentence_Some in Hs as [Hn Hlen].
    destruct (Nat.eqb_spec n 0) as [->|_]; [lia|].
    rewrite IH; [by rewrite reverse_nil|]. rewrite !length_drop. lia.
  - by rewrite reverse_nil.
Qed.

Lemma re_split_sentences text :
  re_split sentence_pattern text = Some (segment text).
Proof.
  unfold re_split. rewrite compile_sentence_pattern. cbn [mbind option_bind].
  apply split_loop_segment. lia.
Qed.
End Segmenting.

(** ** The keyword matcher *)

Section Matcher.
Context {U : Unicode}.

Lemma sentences_with_cons keyword sentence rest :
  sentences_with keyword (sentence :: rest)
  = if bool_decide (is_Some (search (keyword_nodes keyword) [] sentence))
    then sentence :: sentences_with keyword rest
    else sentences_with keyword rest.
Proof.
  unfold sentences_with. rewrite filter_cons, re_search_keyword.
  destruct (bool_decide _); by case_decide.
Qed.

Lemma sentence_count_le keyword sentences :
  (sentence_count keyword sentences ≤ length sentences)%nat.
Proof. apply length_filter. Qed.

Lemma scan_sentences_spec keyword sentences : ∀ count found,
  scan_sentences (keyword_pattern keyword) sentences count found
  = Some ((count + sentence_count keyword sentences)%nat,
          stripped_matches keyword sentences ∪ found).
Proof.
  unfold sentence_count, stripped_matches.
  induction sentences as [|sentence rest IH]; intros count found.
  - cbn. f_equal. f_equal; [lia|set_solver].
  - cbn [scan_sentences]. rewrite re_search_keyword, sentences_with_cons.
    cbn [mbind option_bind]. destruct (bool_decide _).
    + rewrite IH. cbn [length fmap list_fmap]. f_equal. f_equal; [lia|].
      set_solver.
    + apply IH.
Qed.

(** The two results of the loop over the keywords, read off the keyword
    list. *)
Lemma scan_keywords_spec sentences keywords : ∀ occurrences found,
  ∃ occurrences' found',
    scan_keywords sentences keywords occurrences found
    = Some (occurrences', found')
    ∧ (∀ k, occurrences' !! k
            = if bool_decide (k ∈ keywords)
                 && (0 <? sentence_count k sentences)%nat
              then Some (sentence_count k sentences) else occurrences !! k)
    ∧ (∀ x, x ∈ found' ↔
            x ∈ found ∨ ∃ k, k ∈ keywords ∧ x ∈ stripped_matches k sentences).
Proof.
  induction keywords as [|keyword rest IH]; intros occurrences found.
  - exists occurrences, found. split_and!; [done|done|]. set_solver.
  - cbn [scan_keywords]. rewrite scan_sentences_spec. cbn [mbind option_bind].
    rewrite Nat.add_0_l.
    edestruct IH as (occ' & found' & -> & Hocc & Hfound).
    exists occ', found'. split_and!; [done| |].
    + intros k. rewrite Hocc.
      destruct (decide (k = keyword)) as [->|Hne].
      * rewrite (bool_decide_eq_true_2 (keyword ∈ keyword :: rest))
          by set_solver. cbn [andb].
        destruct (0 <? sentence_count keyword sentences)%nat eqn:Hpos.
        -- rewrite lookup_insert_eq. by destruct (bool_decide _).
        -- by rewrite andb_false_r.
      * assert (bool_decide (k ∈ keyword :: rest) = bool_decide (k ∈ rest)) as ->
          by (apply bool_decide_ext; set_solver).
        destruct (bool_decide (k ∈ rest) && _); [done|].
        destruct (0 <? _)%nat; [|done]. by rewrite lookup_insert_ne.
    + intros x. rewrite Hfound. set_solver.
Qed.

Section Analysis.
Context {order : SetOrder}.

Lemma analyze_spec text keywords :
  ∃ occurrences found,
    analyze_text_for_keywords text keywords
    = Some (occurrences, set_to_list found)
    ∧ (∀ k, occurrences !! k
            = if bool_decide (k ∈ keywords)
                 && (0 <? sentence_count k (segment text))%nat
              then Some (sentence_count k (segment text)) else None)
    ∧ (∀ x, x ∈ found ↔
            ∃ k, k ∈ keywords ∧ x ∈ stripped_matches k (segment text)).
Proof.
  unfold analyze_text_for_keywords. rewrite re_split_sentences.
  cbn [mbind option_bind].
  destruct (scan_keywords_spec (segment text) keywords ∅ ∅)
    as (occ & found & -> & Hocc & Hfound).
  exists occ, found. split_and!; [done| |].
  - intros k. by rewrite Hocc, lookup_empty.
  - intros x. rewrite Hfound. set_solver.
Qed.

(** The result only depends on which keywords are in the list. *)
Lemma analyze_same_keywords text keywords keywords' :
  (∀ k, k ∈ keywords ↔ k ∈ keywords') →
  analyze_text_for_keywords text keywords
  = analyze_text_for_keywords text keywords'.
Proof.
  intros Hsame.
  destruct (analyze_spec text keywords) as (occ & found & -> & Hocc & Hfound).
  destruct (analyze_spec text keywords') as (occ' & found' & -> & Hocc' & Hfound').
  assert (occ = occ') as <-.
  { apply map_eq. intros k. rewrite Hocc, Hocc'.
    by rewrite (bool_decide_ext _ _ (Hsame k)). }
  assert (found = found') as <-; [|done].
  apply set_eq. intros x. rewrite Hfound, Hfound'. naive_solver.
Qed.

(** C2.  The count the matcher returns for a keyword of the list is the
    number of sentences of the segmented text the keyword is found in,
    however often it occurs in one of them, and the keyword is a key of
    the returned mapping exactly when that number is positive.  In
    [A cat and a cat. The cat sat.] the keyword [cat] occurs three times
    and counts two. *)
Theorem count_is_number_of_sentences text keywords keyword :
  keyword ∈ keywords →
  ∃ sentences occurrences found,
    re_split sentence_pattern text = Some sentences
    ∧ analyze_text_for_keywords text keywords = Some (occurrences, found)
    ∧ (is_Some (occurrences !! keyword)
       ↔ (0 < sentence_count keyword sentences)%nat)
    ∧ (∀ count, occurrences !! keyword = Some count →
                count = sentence_count keyword sentences)
    ∧ fst <$> analyze_text_for_keywords (cp "A cat and a cat. The cat sat.")
                [cp "cat"]
      = Some {[ cp "cat" := 2%nat ]}.
Proof.
  intros Hin.
  destruct (analyze_spec text keywords) as (occ & found & Ha & Hocc & _).
  exists (segment text), occ, (set_to_list found).
  split_and!; [apply re_split_sentences|done| | |by vm_compute].
  - rewrite Hocc, (bool_decide_eq_true_2 _ Hin). cbn [andb].
    destruct (Nat.ltb_spec 0 (sentence_count keyword (segment text))).
    + split; [done|]. by eexists.
    + split; [by intros [? ?]|lia].
  - intros count. rewrite Hocc, (bool_decide_eq_true_2 _ Hin). cbn [andb].
    destruct (0 <? _)%nat; naive_solver.
Qed.

(** C10.  The mapping the matcher returns is well formed: every key is a
    keyword of the list, and every value is at least one and at most the
    number of sentences of the segmented text. *)
Theorem counts_well_formed text keywords :
  ∃ sentences occurrences found,
    re_split sentence_pattern text = Some sentences
    ∧ analyze_text_for_keywords text keywords = Some (occurrences, found)
    ∧ ∀ keyword count, occurrences !! keyword = Some count →
        keyword ∈ keywords ∧ (1 ≤ count ≤ length sentences)%nat.
Proof.
  destruct (analyze_spec text keywords) as (occ & found & Ha & Hocc & _).
  exists (segment text), occ, (set_to_list found).
  split_and!; [apply re_split_sentences|done|].
  intros keyword count. rewrite Hocc.
  destruct (bool_decide_reflect (keyword ∈ keywords)) as [Hin|]; [|done].
  cbn [andb].
  destruct (Nat.ltb_spec 0 (sentence_count keyword (segment text))); [|done].
  intros [= <-]. pose proof (sentence_count_le keyword (segment text)).
  split; [done|lia].
Qed.

(** C7, as the code has it.  A keyword that is in the list twice counts
    once: the matcher returns for the list what it returns for the list
    without the second occurrence. *)
Theorem duplicate_keyword_counted_once text l1 keyword l2 l3 :
  analyze_text_for_keywords text (l1 ++ keyword :: l2 ++ keyword :: l3)
  = analyze_text_for_keywords text (l1 ++ keyword :: l2 ++ l3).
Proof. apply analyze_same_keywords. set_solver. Qed.
End Analysis.

(** C9.  The matcher is a function of the text and the keyword list: two
    runs return the same counts and the same set of sentences, whatever
    order each run enumerates that set in. *)
Theorem matcher_deterministic (run1 run2 : SetOrder) text keywords :
  ∃ occurrences sentences1 sentences2,
    analyze_text_for_keywords (order := run1) text keywords
    = Some (occurrences, sentences1)
    ∧ analyze_text_for_keywords (order := run2) text keywords
      = Some (occurrences, sentences2)
    ∧ sentences1 ≡ₚ sentences2
    ∧ (list_to_set sentences1 : gset str) = list_to_set sentences2.
Proof.
  destruct (analyze_spec (order := run1) text keywords)
    as (occ & found & Ha & Hocc & Hfound).
  destruct (analyze_spec (order := run2) text keywords)
    as (occ' & found' & Ha' & Hocc' & Hfound').
  assert (occ = occ') as <-.
  { apply map_eq. intros k. by rewrite Hocc, Hocc'. }
  assert (found = found') as <-.
  { apply set_eq. intros x. by rewrite Hfound, Hfound'. }
  exists occ, (set_to_list (SetOrder := run1) found),
    (set_to_list (SetOrder := run2) found).
  split_and!; [done|done| |].
  - by rewrite !set_to_list_perm.
  - apply set_eq. intros x. rewrite !elem_of_list_to_set.
    by rewrite !set_to_list_perm.
Qed.

(** C3.  The keyword pattern parses to a word boundary, the characters of
    the keyword as case-insensitive literals, and a word boundary, whatever
    characters the keyword is made of; a sentence matches it exactly when
    the keyword occurs in it between two word boundaries, up to case.
    [cat] is not found in [concatenate the strings.] and is found in
    [The cat sat.] *)
Theorem keyword_match_is_whole_word keyword sentence :
  re_compile (keyword_pattern keyword) true = Some (keyword_nodes keyword)
  ∧ (∃ hit, re_search (keyword_pattern keyword) sentence true = Some hit
            ∧ (hit = true ↔ whole_word_occurrence keyword sentence))
  ∧ re_search (keyword_pattern (cp "cat")) (cp "concatenate the strings.") true
    = Some false
  ∧ re_search (keyword_pattern (cp "cat")) (cp "The cat sat.") true = Some true.
Proof.
  split_and!; [apply compile_keyword_pattern| |by vm_compute|by vm_compute].
  eexists. split; [apply re_search_keyword|].
  by rewrite bool_decide_eq_true, search_keyword.
Qed.

(** C4, as the code has it.  [re.split] with [sentence_pattern] cuts where
    white space follows [.], [!] or [?], unless what precedes the white
    space ends in a word character, a period, a word character and one
    more character other than a line feed (as [U.S.] does), or in an
    upper-case letter, a lower-case letter and a period (as [Mr.] does).
    [Mr. Smith went home. He left.] gives two sentences. *)
Theorem sentences_of_text text :
  re_split sentence_pattern text = Some (segment text)
  ∧ re_split sentence_pattern (cp "Mr. Smith went home. He left.")
    = Some [cp "Mr. Smith went home."; cp "He left."]
  ∧ re_split sentence_pattern (cp "The U.S. economy grew. Prices fell.")
    = Some [cp "The U.S. economy grew."; cp "Prices fell."].
Proof. split_and!; [apply re_split_sentences|by vm_compute|by vm_compute]. Qed.
End Matcher.

(** ** The pipeline *)

Section Reading.
Context {W : World}.

(** The two attempts of [read_pdf_content], one after the other. *)
Lemma read_pdf_content_cases url tr :
  read_pdf_content url tr
  = match try_read url tr with
    | (inr text, tr1) => (Some text, tr1)
    | (inl _, tr1) =>
        match try_read url (tr1 ++ [Sleep RETRY_DELAY]) with
        | (inr text, tr2) => (Some text, tr2)
        | (inl e, tr2) => (None, tr2 ++ [Log_error url (failure_message e)])
        end
    end.
Proof.
  unfold read_pdf_content. cbn.
  destruct (try_read url tr) as [[e1|text1] tr1]; [|done].
  by destruct (try_read url (tr1 ++ [Sleep RETRY_DELAY])) as [[e2|text2] tr2].
Qed.

Lemma try_read_trace url tr :
  ∃ events, (try_read url tr).2 = tr ++ events
            ∧ filter is_log events = []
            ∧ (length (filter is_request events) = 1)%nat.
Proof.
  unfold try_read. destruct (urlopen tr url) as [e|content]; cbn.
  - by exists [Request url].
  - by exists [Request url; Open_document content].
Qed.

(** A URL adds one line to the error log when reading it fails, and none
    otherwise. *)
Lemma read_pdf_content_log url tr :
  log_entries (read_pdf_content url tr).2
  = (log_entries tr
     + if read_failed (read_pdf_content url tr).1 then 1 else 0)%nat.
Proof.
  unfold log_entries. rewrite read_pdf_content_cases.
  destruct (try_read_trace url tr) as (ev1 & Htr1 & Hlog1 & _).
  destruct (try_read url tr) as [[e1|text1] tr1]; cbn in Htr1; subst tr1.
  - destruct (try_read_trace url ((tr ++ ev1) ++ [Sleep RETRY_DELAY]))
      as (ev2 & Htr2 & Hlog2 & _).
    destruct (try_read url ((tr ++ ev1) ++ [Sleep RETRY_DELAY]))
      as [[e2|text2] tr2]; cbn in Htr2 |- *; subst tr2;
      rewrite !filter_app, !length_app, Hlog1, Hlog2; cbn;
      repeat case_decide; try done; cbn; lia.
  - cbn. rewrite filter_app, length_app, Hlog1. cbn. lia.
Qed.
End Reading.

Section Run.
Context {U : Unicode} {order : SetOrder} {W : World}.

Lemma analyze_total text keywords :
  is_Some (analyze_text_for_keywords text keywords).
Proof. destruct (analyze_spec text keywords) as (? & ? & -> & _). done. Qed.

(** A run comes to its end, with one row for each URL that gave text and
    one line in the error log for each URL that could not be read. *)
Lemma process_urls_counts keywords company_names urls :
  ∀ index results all tr,
  ∃ results' all' tr',
    process_urls index urls keywords company_names results all tr
    = Some (results', all', tr')
    ∧ length results'
      = (length results + length (filter (λ t, has_text t = true) (reads urls tr)))%nat
    ∧ log_entries tr'
      = (log_entries tr
         + length (filter (λ t, read_failed t = true) (reads urls tr)))%nat.
Proof.
  induction urls as [|url rest IH]; intros index results all tr.
  - exists results, all, tr. cbn. split_and!; [done|lia|lia].
  - cbn [process_urls reads].
    pose proof (read_pdf_content_log url tr) as Hlog.
    destruct (read_pdf_content url tr) as [text tr1]. cbn [fst snd] in Hlog.
    assert (log_entries (tr1 ++ [Sleep 1]) = log_entries tr1) as Hsleep.
    { unfold log_entries. rewrite filter_app, length_app.
      change (length (filter is_log [Sleep 1])) with 0%nat. lia. }
    destruct text as [[|c text]|].
    + cbn [mbind option_bind].
      edestruct IH as (results' & all' & tr' & -> & Hrows & Hlogs).
      exists results', all', tr'. split; [done|].
      rewrite Hrows, Hlogs, Hsleep, Hlog, !filter_cons.
      repeat case_decide; try done; cbn; lia.
    + destruct (analyze_total (c :: text) keywords) as [[occ sentences] ->].
      cbn [mbind option_bind].
      edestruct IH as (results' & all' & tr' & -> & Hrows & Hlogs).
      exists results', all', tr'. split; [done|].
      rewrite Hrows, Hlogs, Hsleep, Hlog, !filter_cons, length_app.
      repeat case_decide; try done; cbn; lia.
    + cbn [mbind option_bind].
      edestruct IH as (results' & all' & tr' & -> & Hrows & Hlogs).
      exists results', all', tr'. split; [done|].
      rewrite Hrows, Hlogs, Hsleep, Hlog, !filter_cons.
      repeat case_decide; try done; cbn; lia.
Qed.
End Run.

Section Outcomes.
Context {U : Unicode} {order : SetOrder} {W : World}.

Lemma process_urls_skip index url rest keywords company_names results all tr tr' :
  read_pdf_content url tr = (None, tr') →
  process_urls index (url :: rest) keywords company_names results all tr
  = process_urls (S index) rest keywords company_names results all
      (tr' ++ [Sleep 1]).
Proof. intros Hread. cbn [process_urls]. by rewrite Hread. Qed.

(** C6.  When both downloads of a URL fail, [read_pdf_content] has made
    [MAX_RETRIES] requests, has slept [RETRY_DELAY] seconds after the first
    and not after the last, and has then written one line to the error
    log; the loop adds no row and goes on with the URLs that follow. *)
Theorem failed_fetch_logged_once
    index url rest keywords company_names results all tr e1 e2 :
  urlopen tr url = inl e1 →
  urlopen (tr ++ [Request url; Sleep RETRY_DELAY]) url = inl e2 →
  read_pdf_content url tr
  = (None,
     tr ++ [Request url; Sleep RETRY_DELAY; Request url;
            Log_error url (failure_message e2)])
  ∧ length (filter is_request
              [Request url; Sleep RETRY_DELAY; Request url;
               Log_error url (failure_message e2)]) = MAX_RETRIES
  ∧ process_urls index (url :: rest) keywords company_names results all tr
    = process_urls (S index) rest keywords company_names results all
        (tr ++ [Request url; Sleep RETRY_DELAY; Request url;
                Log_error url (failure_message e2); Sleep 1]).
Proof.
  intros Hfirst Hsecond.
  assert (read_pdf_content url tr
          = (None,
             tr ++ [Request url; Sleep RETRY_DELAY; Request url;
                    Log_error url (failure_message e2)])) as Hread.
  { rewrite read_pdf_content_cases. unfold try_read. rewrite Hfirst.
    rewrite <- app_assoc. cbn [app]. rewrite Hsecond.
    by rewrite <- !app_assoc. }
  split_and!; [done|done|].
  rewrite (process_urls_skip _ _ _ _ _ _ _ _ _ Hread). by rewrite <- app_assoc.
Qed.

(** C5, as the code has it.  A failure of the extraction ends the attempt
    as a failure of the download does: the document is downloaded and
    opened again after [RETRY_DELAY] seconds, and when the extraction
    fails again one line is written to the error log and the loop goes on
    without a row. *)
Theorem failed_extraction_retried
    index url rest keywords company_names results all tr
    content1 content2 e1 e2 :
  urlopen tr url = inr content1 →
  extract_text content1 = inl e1 →
  urlopen (tr ++ [Request url; Open_document content1; Sleep RETRY_DELAY]) url
  = inr content2 →
  extract_text content2 = inl e2 →
  read_pdf_content url tr
  = (None,
     tr ++ [Request url; Open_document content1; Sleep RETRY_DELAY;
            Request url; Open_document content2;
            Log_error url (failure_message e2)])
  ∧ process_urls index (url :: rest) keywords company_names results all tr
    = process_urls (S index) rest keywords company_names results all
        (tr ++ [Request url; Open_document content1; Sleep RETRY_DELAY;
                Request url; Open_document content2;
                Log_error url (failure_message e2); Sleep 1]).
Proof.
  intros Hfirst Hbad1 Hsecond Hbad2.
  assert (read_pdf_content url tr
          = (None,
             tr ++ [Request url; Open_document content1; Sleep RETRY_DELAY;
                    Request url; Open_document content2;
                    Log_error url (failure_message e2)])) as Hread.
  { rewrite read_pdf_content_cases. unfold try_read. rewrite Hfirst, Hbad1.
    rewrite <- app_assoc. cbn [app]. rewrite Hsecond, Hbad2.
    by rewrite <- !app_assoc. }
  split; [done|].
  rewrite (process_urls_skip _ _ _ _ _ _ _ _ _ Hread). by rewrite <- app_assoc.
Qed.

Lemma reads_length urls : ∀ tr, length (reads urls tr) = length urls.
Proof.
  induction urls as [|url rest IH]; intros tr; [done|]. cbn [reads].
  destruct (read_pdf_content url tr). cbn. by rewrite IH.
Qed.

Lemma outcomes_partition (texts : list (option str)) :
  length texts
  = (length (filter (λ t, has_text t = true) texts)
     + length (filter (λ t, read_failed t = true) texts)
     + length (filter (λ t, read_blank t = true) texts))%nat.
Proof.
  induction texts as [|[[|c text]|] rest IH]; [done|..];
    rewrite !filter_cons; repeat case_decide; try done; cbn; lia.
Qed.

(** C1, as the code has it.  A run over the URLs of the file comes to its
    end; each URL is of one of three kinds: read with text, which gives one
    row; not read, which gives one line in the error log; read with empty
    text, which gives neither.  The rows are as many as the URLs of the
    first kind, the new lines in the log as many as those of the second. *)
Theorem rows_and_log_entries url_file keywords company_names tr :
  ∃ results sentences tr',
    process_filings url_file keywords company_names tr
    = Some (results, sentences, tr')
    ∧ length results
      = length (filter (λ t, has_text t = true) (reads (urls_of_file url_file) tr))
    ∧ log_entries tr'
      = (log_entries tr
         + length (filter (λ t, read_failed t = true)
                     (reads (urls_of_file url_file) tr)))%nat
    ∧ length (urls_of_file url_file)
      = (length (filter (λ t, has_text t = true) (reads (urls_of_file url_file) tr))
         + length (filter (λ t, read_failed t = true)
                     (reads (urls_of_file url_file) tr))
         + length (filter (λ t, read_blank t = true)
                     (reads (urls_of_file url_file) tr)))%nat.
Proof.
  unfold process_filings.
  destruct (process_urls_counts keywords company_names (urls_of_file url_file)
              0 [] ∅ tr) as (results & all & tr' & -> & Hrows & Hlogs).
  exists results, (set_to_list all), tr'.
  split_and!; [done|done|done|].
  by rewrite <- outcomes_partition, reads_length.
Qed.

(** C8.  The sentences a run returns are pairwise distinct.  Two documents
    that both read [The cat sat.] give that sentence once. *)
Theorem run_wide_sentences_distinct url_file keywords company_names tr :
  (∃ results sentences tr',
     process_filings url_file keywords company_names tr
     = Some (results, sentences, tr')
     ∧ NoDup sentences)
  ∧ (λ r, r.1.2)
      <$> process_filings (U := basic_latin) (order := sorted_order)
            (W := cat_report) [cp "http://a/1.pdf"; cp "http://a/2.pdf"]
            [cp "cat"] None []
    = Some [cp "The cat sat."].
Proof.
  split; [|by vm_compute].
  unfold process_filings.
  destruct (process_urls_counts keywords company_names (urls_of_file url_file)
              0 [] ∅ tr) as (results & all & tr' & -> & _).
  exists results, (set_to_list all), tr'. split; [done|].
  rewrite set_to_list_perm. apply NoDup_elements.
Qed.
End Outcomes.

(** ** Concrete runs *)

(** C2 on [The cat sat. No dog.] with the keywords [cat] and [dog], for
    the keyword [dog]. *)
Lemma count_is_number_of_sentences_example :
  ∃ sentences occurrences found,
    re_split (U := basic_latin) sentence_pattern (cp "The cat sat. No dog.")
    = Some sentences
    ∧ analyze_text_for_keywords (U := basic_latin) (order := sorted_order)
        (cp "The cat sat. No dog.") [cp "cat"; cp "dog"]
      = Some (occurrences, found)
    ∧ (is_Some (occurrences !! cp "dog")
       ↔ (0 < sentence_count (U := basic_latin) (cp "dog") sentences)%nat)
    ∧ (∀ count, occurrences !! cp "dog" = Some count →
                count = sentence_count (U := basic_latin) (cp "dog") sentences)
    ∧ fst <$> analyze_text_for_keywords (U := basic_latin)
                (order := sorted_order)
                (cp "A cat and a cat. The cat sat.") [cp "cat"]
      = Some {[ cp "cat" := 2%nat ]}.
Proof.
  apply (count_is_number_of_sentences (U := basic_latin)
           (order := sorted_order) (cp "The cat sat. No dog.")
           [cp "cat"; cp "dog"] (cp "dog")).
  apply list_elem_of_further, list_elem_of_here.
Defined.

(** C10 on [The cat sat. A cat ran. No dog.]: the key [cat] is a keyword
    of the list and its count, two, is at most the three sentences. *)
Lemma counts_well_formed_example :
  cp "cat" ∈ [cp "cat"; cp "dog"] ∧ (1 ≤ 2 ≤ 3)%nat.
Proof.
  destruct (counts_well_formed (U := basic_latin) (order := sorted_order)
              (cp "The cat sat. A cat ran. No dog.") [cp "cat"; cp "dog"])
    as (sentences & occurrences & found & Hsplit & Hanalyze & Hwf).
  vm_compute in Hsplit. injection Hsplit as <-.
  vm_compute in Hanalyze. injection Hanalyze as <- _.
  apply (Hwf (cp "cat") 2%nat). by vm_compute.
Defined.

(** C6 on a run without network. *)
Lemma failed_fetch_logged_once_example :
  read_pdf_content (W := offline) sample_url []
  = (None,
     [Request sample_url; Sleep RETRY_DELAY; Request sample_url;
      Log_error sample_url (failure_message (cp "timed out"))])
  ∧ length (filter is_request
              [Request sample_url; Sleep RETRY_DELAY; Request sample_url;
               Log_error sample_url (failure_message (cp "timed out"))])
    = MAX_RETRIES
  ∧ process_urls (U := basic_latin) (order := sorted_order) (W := offline)
      0 [sample_url; other_url] [cp "cat"] None [] ∅ []
    = process_urls (U := basic_latin) (order := sorted_order) (W := offline)
        1 [other_url] [cp "cat"] None [] ∅
        [Request sample_url; Sleep RETRY_DELAY; Request sample_url;
         Log_error sample_url (failure_message (cp "timed out")); Sleep 1].
Proof.
  apply (failed_fetch_logged_once (U := basic_latin) (order := sorted_order)
           (W := offline) 0 sample_url [other_url] [cp "cat"] None [] ∅ []
           (cp "timed out") (cp "timed out")); reflexivity.
Defined.

(** C5, as the code has it, on a document that cannot be opened. *)
Lemma failed_extraction_retried_example :
  read_pdf_content (W := corrupt) sample_url []
  = (None,
     [Request sample_url; Open_document [Byte.x25; Byte.x50];
      Sleep RETRY_DELAY;
      Request sample_url; Open_document [Byte.x25; Byte.x50];
      Log_error sample_url (failure_message (cp "cannot open broken document"))])
  ∧ process_urls (U := basic_latin) (order := sorted_order) (W := corrupt)
      0 [sample_url; other_url] [cp "cat"] None [] ∅ []
    = process_urls (U := basic_latin) (order := sorted_order) (W := corrupt)
        1 [other_url] [cp "cat"] None [] ∅
        [Request sample_url; Open_document [Byte.x25; Byte.x50];
         Sleep RETRY_DELAY;
         Request sample_url; Open_document [Byte.x25; Byte.x50];
         Log_error sample_url
           (failure_message (cp "cannot open broken document"));
         Sleep 1].
Proof.
  apply (failed_extraction_retried (U := basic_latin) (order := sorted_order)
           (W := corrupt) 0 sample_url [other_url] [cp "cat"] None [] ∅ []
           [Byte.x25; Byte.x50] [Byte.x25; Byte.x50]
           (cp "cannot open broken document")
           (cp "cannot open broken document")); reflexivity.
Defined.

(** C1 as stated fails: the download and the extraction of a scanned
    document succeed, its text is empty, and the run ends with no row for
    it and no line in the error log. *)
Lemma scanned_document_leaves_nothing :
  reads (W := scanned) [sample_url] [] = [Some []]
  ∧ process_filings (U := basic_latin) (order := sorted_order) (W := scanned)
      [sample_url] [cp "cat"] None []
    = Some ([], [],
            [Request sample_url;
             Open_document [Byte.x25; Byte.x50; Byte.x44; Byte.x46]; Sleep 1]).
Proof. split; by vm_compute. Qed.

(** C4 as stated fails: a single capital letter and a period do not keep
    the text together.  [A. Smith left.] is cut after [A.], where the
    exceptions as the spec words them give one sentence.  And the first
    exception is wider than a period, a letter and a period:
    [Is it 3.5? Yes.] is not cut. *)
Lemma single_initial_is_cut :
  re_split (U := basic_latin) sentence_pattern (cp "A. Smith left.")
  = Some [cp "A."; cp "Smith left."]
  ∧ spec_segment (U := basic_latin) (cp "A. Smith left.")
    = [cp "A. Smith left."]
  ∧ re_split (U := basic_latin) sentence_pattern (cp "Is it 3.5? Yes.")
    = Some [cp "Is it 3.5? Yes."]
  ∧ spec_segment (U := basic_latin) (cp "Is it 3.5? Yes.")
    = [cp "Is it 3.5?"; cp "Yes."].
Proof. split_and!; by vm_compute. Qed.

(** C5 as stated fails: a document that cannot be opened is downloaded
    and opened twice before the failure is logged. *)
Lemma corrupt_document_opened_twice :
  read_pdf_content (W := corrupt) sample_url []
  = (None,
     [Request sample_url; Open_document [Byte.x25; Byte.x50]; Sleep 5;
      Request sample_url; Open_document [Byte.x25; Byte.x50];
      Log_error sample_url
        (cp "Failed to read PDF after 2 attempts: cannot open broken document")])
  ∧ length (filter is_open (read_pdf_content (W := corrupt) sample_url []).2)
    = 2%nat.
Proof. split; by vm_compute. Qed.

(** C7 as stated fails: with [cat] twice in the list the count of [cat]
    in [The cat sat.] is one, as it is with [cat] once. *)
Lemma duplicate_keyword_not_doubled :
  fst <$> analyze_text_for_keywords (U := basic_latin) (order := sorted_order)
            (cp "The cat sat.") [cp "cat"; cp "cat"]
  = Some {[ cp "cat" := 1%nat ]}
  ∧ fst <$> analyze_text_for_keywords (U := basic_latin)
              (order := sorted_order) (cp "The cat sat.") [cp "cat"]
    = Some {[ cp "cat" := 1%nat ]}.
Proof. split; by vm_compute. Qed.

(** A word boundary is not a space: after a keyword that ends in a
    character that is not a word character, the text has to go on with a
    word character. *)
Example keyword_ending_in_punctuation :
  re_search (U := basic_latin) (keyword_pattern (cp "C++"))
    (cp "I like C++ a lot.") true = Some false
  ∧ re_search (U := basic_latin) (keyword_pattern (cp "C++"))
      (cp "I like C++now.") true = Some true.
Proof. split; by vm_compute. Qed.

(** [re.split] with [sentence_pattern] on a few texts, as CPython 3.11
    answers: the empty text; a period at the start; a line feed and a
    space as one separator; [Hi.] taken for a title; a separator at the
    end. *)
Example re_split_examples :
  re_split (U := basic_latin) sentence_pattern [] = Some [[]]
  ∧ re_split (U := basic_latin) sentence_pattern (cp " . a")
    = Some [cp " ."; cp "a"]
  ∧ re_split (U := basic_latin) sentence_pattern (cp "a." ++ [10; 32] ++ cp "b")
    = Some [cp "a."; cp "b"]
  ∧ re_split (U := basic_latin) sentence_pattern (cp "Hi." ++ [10; 10] ++ cp "Ok")
    = Some [cp "Hi." ++ [10; 10] ++ cp "Ok"]
  ∧ re_split (U := basic_latin) sentence_pattern (cp "It ends! ")
    = Some [cp "It ends!"; []].
Proof. split_and!; by vm_compute. Qed.

(** * Further properties *)

(** ** Lines of the list files *)

Section Stripping.
Context {U : Unicode}.

Lemma lstrip_blank s : lstrip s = [] ↔ blank s = true.
Proof.
  induction s as [|c s IH]; [done|]. cbn.
  destruct (isspace c); [done|]. split; done.
Qed.

Lemma lstrip_head s : no_space_at (head (lstrip s)).
Proof.
  induction s as [|c s IH]; [done|]. cbn.
  destruct (isspace c) eqn:Hc; [done|]. by cbn.
Qed.

Lemma lstrip_suffix s : lstrip s `suffix_of` s.
Proof.
  induction s as [|c s IH]; [done|]. cbn.
  destruct (isspace c); [by apply suffix_cons_r|done].
Qed.

Lemma blank_app s t : blank (s ++ t) = blank s && blank t.
Proof. apply forallb_app. Qed.

Lemma blank_reverse s : blank (reverse s) = blank s.
Proof.
  induction s as [|c s IH]; [done|].
  rewrite reverse_cons. unfold blank in *. rewrite forallb_app, IH. cbn.
  by destruct (isspace c), (forallb isspace s).
Qed.

Lemma strip_blank s : strip s = [] ↔ blank s = true.
Proof.
  unfold strip. split.
  - intros Hs. apply (f_equal reverse) in Hs.
    rewrite reverse_involutive, reverse_nil in Hs.
    apply lstrip_blank in Hs. rewrite blank_reverse in Hs.
    destruct (lstrip_suffix s) as [ws Hws].
    destruct (lstrip s) eqn:Hl; [by apply lstrip_blank|].
    pose proof (lstrip_head s) as Hh. rewrite Hl in Hh. cbn in Hh, Hs.
    unfold no_space_at in Hh. cbn in Hh. by rewrite Hh in Hs.
  - intros Hs. apply lstrip_blank in Hs. rewrite Hs.
    by rewrite reverse_nil.
Qed.

Lemma strip_trimmed s : strip s ≠ [] → trimmed (strip s).
Proof.
  intros Hne. split; [done|]. unfold strip in *.
  set (t := lstrip s) in *.
  destruct (lstrip_suffix (reverse t)) as [ws Hws].
  set (r := lstrip (reverse t)) in *.
  assert (t = reverse r ++ reverse ws) as Ht.
  { rewrite <- reverse_app, <- Hws. by rewrite reverse_involutive. }
  split.
  - destruct (reverse r) as [|c r'] eqn:Hr; [done|].
    pose proof (lstrip_head s) as Hh. fold t in Hh. rewrite Ht in Hh.
    by cbn in Hh |- *.
  - rewrite last_reverse. apply lstrip_head.
Qed.
End Stripping.

Section Loading.
Context {U : Unicode} {F : Files}.

Lemma stripped_lines_Forall lines : Forall trimmed (stripped_lines lines).
Proof.
  unfold stripped_lines. apply Forall_forall. intros line Hin.
  apply list_elem_of_filter in Hin as [Hne Hin].
  apply list_elem_of_fmap in Hin as (raw & -> & _). by apply strip_trimmed.
Qed.

Lemma stripped_lines_nil lines :
  stripped_lines lines = [] ↔ Forall (λ line, blank line = true) lines.
Proof.
  unfold stripped_lines. induction lines as [|raw lines IH]; [done|].
  rewrite fmap_cons, filter_cons, Forall_cons, <- IH, <- strip_blank.
  case_decide; naive_solver.
Qed.

(** X1.  Whatever the three list files hold, the keywords, the company
    names and the URLs the program works with are not empty and neither
    start nor end with white space; a file of blank lines gives no entry
    at all; what is left keeps the order of the file. *)
Theorem loaded_entries_trimmed keywords_file names_file tr lines :
  Forall trimmed (extract_keywords keywords_file tr).1
  ∧ Forall trimmed (read_company_names names_file tr).1
  ∧ Forall trimmed (urls_of_file lines)
  ∧ (urls_of_file lines = [] ↔ Forall (λ line, blank line = true) lines)
  ∧ urls_of_file lines `sublist_of` (strip <$> lines).
Proof.
  split_and!.
  - unfold extract_keywords. destruct (read_lines keywords_file); cbn; [done|].
    apply stripped_lines_Forall.
  - unfold read_company_names.
    destruct (read_lines names_file) as [[]|]; cbn; [done|done|].
    apply stripped_lines_Forall.
  - apply stripped_lines_Forall.
  - apply stripped_lines_nil.
  - apply sublist_filter.
Qed.
End Loading.

(** ** Shape of the sentences *)

Section Segments.
Context {U : Unicode}.

Lemma splits_here_space suppressed before c rest :
  splits_here suppressed before (c :: rest) = true →
  isspace c = true ∧ from_option terminal false (head before) = true.
Proof.
  unfold splits_here. destruct before as [|p before']; [done|]. cbn.
  destruct (terminal p), (isspace c); done.
Qed.

Lemma segment_from_keeps suppressed after : ∀ before sentence skipping,
  (skipping = true → sentence = []) →
  filter (λ c, isspace c = false)
    (concat (segment_from suppressed before sentence skipping after))
  = filter (λ c, isspace c = false) (reverse sentence ++ after).
Proof.
  induction after as [|c rest IH]; intros before sentence skipping Hskip.
  - cbn. by rewrite !app_nil_r.
  - cbn [segment_from].
    destruct (skipping && isspace c) eqn:Hfirst.
    + apply andb_true_iff in Hfirst as [-> Hc]. rewrite (Hskip eq_refl).
      rewrite IH by done. rewrite !reverse_nil. cbn [app].
      rewrite filter_cons. case_decide; [congruence|done].
    + destruct (splits_here suppressed before (c :: rest)) eqn:Hsplit.
      * apply splits_here_space in Hsplit as [Hc _].
        cbn [concat]. rewrite !filter_app, IH by done.
        rewrite reverse_nil. cbn [app]. f_equal.
        rewrite filter_cons. case_decide; [congruence|done].
      * rewrite IH by done. by rewrite reverse_cons, <- app_assoc.
Qed.

Lemma segment_from_no_terminal suppressed after : ∀ before sentence,
  from_option terminal false (head before) = false →
  Forall (λ c, terminal c = false) after →
  segment_from suppressed before sentence false after
  = [reverse sentence ++ after].
Proof.
  induction after as [|c rest IH]; intros before sentence Hbefore Hafter.
  - cbn. by rewrite app_nil_r.
  - apply Forall_cons in Hafter as [Hc Hrest]. cbn [segment_from andb].
    assert (splits_here suppressed before (c :: rest) = false) as ->.
    { unfold splits_here. destruct before as [|p before']; [done|].
      cbn in Hbefore. by rewrite Hbefore. }
    rewrite IH by done. by rewrite reverse_cons, <- app_assoc.
Qed.

Lemma segment_from_no_space suppressed after : ∀ before sentence,
  Forall (λ c, isspace c = false) after →
  segment_from suppressed before sentence false after
  = [reverse sentence ++ after].
Proof.
  induction after as [|c rest IH]; intros before sentence Hafter.
  - cbn. by rewrite app_nil_r.
  - apply Forall_cons in Hafter as [Hc Hrest]. cbn [segment_from andb].
    assert (splits_here suppressed before (c :: rest) = false) as ->.
    { unfold splits_here. destruct before as [|p before']; [done|].
      rewrite Hc. by destruct (terminal p). }
    rewrite IH by done. by rewrite reverse_cons, <- app_assoc.
Qed.

Lemma segment_from_well_cut suppressed after : ∀ before sentence skipping,
  (skipping = true → sentence = []) →
  (skipping = false → before ≠ [] → head sentence = head before) →
  ∃ x rest,
    segment_from suppressed before sentence skipping after
    = (reverse sentence ++ x) :: rest
    ∧ well_cut skipping (segment_from suppressed before sentence skipping after).
Proof.
  induction after as [|c after IH]; intros before sentence skipping Hskip Hlast.
  - exists [], []. cbn. split; [by rewrite app_nil_r|].
    exists [], (reverse sentence).
    split_and!; [done|constructor|].
    destruct skipping; cbn; [|constructor].
    rewrite (Hskip eq_refl). by repeat constructor.
  - cbn [segment_from].
    destruct (skipping && isspace c) eqn:Hfirst.
    + apply andb_true_iff in Hfirst as [-> Hc]. rewrite (Hskip eq_refl).
      destruct (IH (c :: before) [] true) as (x & rest & Heq & Hcut); [done|done|].
      exists x, rest. done.
    + destruct (splits_here suppressed before (c :: after)) eqn:Hsplit.
      * apply splits_here_space in Hsplit as [Hc Hp].
        assert (skipping = false) as -> by (destruct skipping; [by rewrite Hc in Hfirst|done]).
        destruct (IH (c :: before) [] true) as (x & rest & Heq & Hcut); [done|done|].
        exists [], (segment_from suppressed (c :: before) [] true after).
        split; [by rewrite app_nil_r|].
        destruct Hcut as (init & final & Hl & Hinit & Hheads).
        exists (reverse sentence :: init), final. rewrite Hl. split_and!; [done| |].
        -- constructor; [|done]. unfold ends_sentence. rewrite last_reverse.
           destruct before as [|p before']; [done|]. by rewrite Hlast.
        -- cbn [tail]. by rewrite <- Hl.
      * destruct (IH (c :: before) (c :: sentence) false) as (x & rest & Heq & Hcut);
          [done|done|].
        exists (c :: x), rest. split.
        { rewrite Heq, reverse_cons, <- app_assoc. done. }
        destruct Hcut as (init & final & Hl & Hinit & Hheads).
        exists init, final. split_and!; [done|done|].
        destruct skipping; [|done]. rewrite Heq in Hheads |- *.
        constructor; [|done]. rewrite (Hskip eq_refl), reverse_cons, reverse_nil.
        cbn. unfold no_space_at. cbn. by rewrite andb_true_l in Hfirst.
Qed.
End Segments.

(** ** What the matcher returns *)

Section Found.
Context {U : Unicode} {order : SetOrder}.

Lemma elem_of_stripped_matches x keyword sentences :
  x ∈ stripped_matches keyword sentences ↔
  ∃ sentence, sentence ∈ sentences
    ∧ re_search (keyword_pattern keyword) sentence true = Some true
    ∧ x = strip sentence.
Proof.
  unfold stripped_matches, sentences_with.
  rewrite elem_of_list_to_set, list_elem_of_fmap.
  setoid_rewrite list_elem_of_filter. naive_solver.
Qed.

Lemma sentence_count_zero keyword sentences :
  sentence_count keyword sentences = O ↔
  ∀ sentence, sentence ∈ sentences →
    re_search (keyword_pattern keyword) sentence true ≠ Some true.
Proof.
  unfold sentence_count, sentences_with. rewrite length_zero_iff_nil. split.
  - intros Hnil sentence Hin Hhit.
    assert (sentence ∈ filter (λ s, re_search (keyword_pattern keyword) s true = Some true) sentences) as Hf
      by by apply list_elem_of_filter.
    rewrite Hnil in Hf. by apply elem_of_nil in Hf.
  - intros Hno. induction sentences as [|s rest IH]; [done|].
    rewrite filter_cons. case_decide as Hs.
    + exfalso. apply (Hno s); [by left|done].
    + apply IH. intros s' Hs'. apply Hno. by right.
Qed.

Lemma found_sentences_spec text keywords :
  ∃ occurrences found,
    analyze_text_for_keywords text keywords = Some (occurrences, found)
    ∧ NoDup found
    ∧ ∀ x, x ∈ found ↔
        ∃ sentence keyword, sentence ∈ segment text ∧ keyword ∈ keywords
          ∧ re_search (keyword_pattern keyword) sentence true = Some true
          ∧ x = strip sentence.
Proof.
  destruct (analyze_spec text keywords) as (occ & found & Ha & _ & Hfound).
  exists occ, (set_to_list found). split_and!; [done| |].
  - rewrite set_to_list_perm. apply NoDup_elements.
  - intros x. rewrite set_to_list_perm, elem_of_elements, Hfound.
    setoid_rewrite elem_of_stripped_matches. naive_solver.
Qed.

(** X5.  The sentences the matcher returns are, each once, the stripped
    sentences of the segmented text in which a keyword of the list is
    found. *)
Theorem matched_sentences_spec text keywords :
  ∃ sentences occurrences found,
    re_split sentence_pattern text = Some sentences
    ∧ analyze_text_for_keywords text keywords = Some (occurrences, found)
    ∧ NoDup found
    ∧ ∀ x, x ∈ found ↔
        ∃ sentence keyword, sentence ∈ sentences ∧ keyword ∈ keywords
          ∧ re_search (keyword_pattern keyword) sentence true = Some true
          ∧ x = strip sentence.
Proof.
  destruct (found_sentences_spec text keywords) as (occ & found & Ha & Hnd & Hfound).
  exists (segment text), occ, found.
  split_and!; [apply re_split_sentences|done|done|done].
Qed.

(** X6.  The matcher returns no count exactly when it returns no sentence. *)
Theorem no_count_no_sentence text keywords :
  ∃ occurrences found,
    analyze_text_for_keywords text keywords = Some (occurrences, found)
    ∧ (occurrences = ∅ ↔ found = []).
Proof.
  destruct (analyze_spec text keywords) as (occ & found & Ha & Hocc & Hfound).
  exists occ, (set_to_list found). split; [done|].
  assert (set_to_list found = [] ↔ found = ∅) as ->.
  { split.
    - intros Hnil. apply set_eq. intros x.
      rewrite <- elem_of_elements, <- set_to_list_perm, Hnil. set_solver.
    - intros ->. apply Permutation_nil_r. by rewrite set_to_list_perm, elements_empty. }
  split.
  - intros ->. apply set_eq. intros x. rewrite Hfound. split; [|set_solver].
    intros (k & Hk & Hx). apply elem_of_stripped_matches in Hx as (s & Hs & Hhit & _).
    specialize (Hocc k). rewrite lookup_empty, (bool_decide_eq_true_2 _ Hk) in Hocc.
    cbn [andb] in Hocc.
    destruct (Nat.ltb_spec 0 (sentence_count k (segment text))) as [|Hz]; [done|].
    assert (sentence_count k (segment text) = O) as Hzero by lia.
    by eapply sentence_count_zero in Hzero.
  - intros ->. apply map_eq. intros k. rewrite Hocc, lookup_empty.
    destruct (bool_decide_reflect (k ∈ keywords)) as [Hk|]; [|done]. cbn [andb].
    destruct (Nat.ltb_spec 0 (sentence_count k (segment text))) as [Hpos|]; [|done].
    exfalso. unfold sentence_count in Hpos.
    destruct (sentences_with k (segment text)) as [|s rest] eqn:Hw; [cbn in Hpos; lia|].
    assert (strip s ∈ (∅ : gset str)) as Hin; [|set_solver].
    apply Hfound. exists k. split; [done|].
    unfold stripped_matches. rewrite Hw. set_solver.
Qed.
End Found.

Section Sentences.
Context {U : Unicode}.

(** X2.  Segmenting loses white space only: the sentences, one after the
    other, read as the text does once white space is left out of both.
    There is always at least one sentence. *)
Theorem sentences_keep_text text :
  ∃ sentences,
    re_split sentence_pattern text = Some sentences
    ∧ sentences ≠ []
    ∧ filter (λ c, isspace c = false) (concat sentences)
      = filter (λ c, isspace c = false) text.
Proof.
  exists (segment text). split_and!; [apply re_split_sentences| |].
  - destruct (segment_from_well_cut abbreviation_before text [] [] false)
      as (x & rest & Heq & _); [done|done|].
    unfold segment. by rewrite Heq.
  - unfold segment. by rewrite segment_from_keeps.
Qed.

(** X3.  Every sentence but the last ends in [.], [!] or [?], and no
    sentence after the first starts with white space. *)
Theorem sentences_well_cut text :
  ∃ init final,
    re_split sentence_pattern text = Some (init ++ [final])
    ∧ Forall ends_sentence init
    ∧ Forall (λ s, no_space_at (head s)) (tail (init ++ [final])).
Proof.
  destruct (segment_from_well_cut abbreviation_before text [] [] false)
    as (_ & _ & _ & init & final & Heq & Hinit & Hheads); [done|done|].
  exists init, final. rewrite <- Heq. split; [apply re_split_sentences|done].
Qed.

(** X4.  A text without [.], [!] and [?], or without white space, is one
    sentence, the text as it is. *)
Theorem unpunctuated_text_is_one_sentence text :
  Forall (λ c, terminal c = false) text ∨ Forall (λ c, isspace c = false) text →
  re_split sentence_pattern text = Some [text].
Proof.
  intros Htext. rewrite re_split_sentences. f_equal. unfold segment.
  destruct Htext as [Htext|Htext].
  - by rewrite segment_from_no_terminal.
  - by rewrite segment_from_no_space.
Qed.
End Sentences.

Section Characters_facts.
Context {U : Unicode}.

Lemma ascii_word_not_space c :
  ascii_isalnum c || (c =? 95) = true → ascii_isspace c = false.
Proof.
  unfold ascii_isalnum, ascii_isspace, in_range.
  repeat match goal with
         | |- context [(?a <=? ?b)] => destruct (N.leb_spec a b)
         | |- context [(?a =? ?b)] => destruct (N.eqb_spec a b)
         end; cbn; try done; lia.
Qed.

Lemma word_not_space c :
  (∀ c, uni_isalnum c = true → uni_isspace c = false) →
  is_word c = true → isspace c = false.
Proof.
  intros Huni. unfold is_word, isalnum, isspace.
  destruct (is_ascii c) eqn:Hascii; [apply ascii_word_not_space|].
  intros Hw. apply orb_true_iff in Hw as [Hw|Hw]; [by apply Huni|].
  apply N.eqb_eq in Hw as ->. done.
Qed.

Lemma not_blank_elem c s : c ∈ s → isspace c = false → blank s = false.
Proof.
  intros Hin Hc. unfold blank. apply not_true_iff_false. intros Hall.
  rewrite forallb_forall in Hall. apply list_elem_of_In in Hin.
  by rewrite (Hall c Hin) in Hc.
Qed.

Lemma whole_word_has_word keyword sentence :
  whole_word_occurrence keyword sentence →
  ∃ c, c ∈ sentence ∧ is_word c = true.
Proof.
  intros (l & w & r & -> & _ & Hb & _). unfold word_boundary in Hb.
  unfold ends_in_word, starts_with_word in Hb.
  destruct (last l) as [c|] eqn:Hl; cbn in Hb.
  - destruct (is_word c) eqn:Hc.
    + exists c. split; [|done]. apply last_Some in Hl as [l' ->]. set_solver.
    + destruct (head (w ++ r)) as [c'|] eqn:Hh; cbn in Hb; [|done].
      exists c'. split; [|by destruct (is_word c')].
      apply head_Some in Hh as [t Ht]. rewrite Ht. set_solver.
  - destruct (head (w ++ r)) as [c'|] eqn:Hh; cbn in Hb; [|done].
    exists c'. split; [|by destruct (is_word c')].
    apply head_Some in Hh as [t Ht]. rewrite Ht. set_solver.
Qed.
End Characters_facts.

Section Found_trimmed.
Context {U : Unicode} {order : SetOrder}.

(** X7.  When no character is both alphanumeric and white space, a
    sentence the matcher returns is not empty and neither starts nor ends
    with white space: a sentence of white space only holds no word
    boundary, so no keyword is found in it. *)
Theorem matched_sentences_trimmed text keywords :
  (∀ c, uni_isalnum c = true → uni_isspace c = false) →
  ∃ occurrences found,
    analyze_text_for_keywords text keywords = Some (occurrences, found)
    ∧ Forall trimmed found.
Proof.
  intros Huni.
  destruct (found_sentences_spec text keywords)
    as (occ & found & Ha & _ & Hfound).
  exists occ, found. split; [done|]. apply Forall_forall. intros x Hx.
  apply Hfound in Hx as (sentence & keyword & _ & _ & Hhit & ->).
  rewrite re_search_keyword in Hhit. injection Hhit as Hhit.
  apply bool_decide_eq_true, search_keyword, whole_word_has_word in Hhit
    as (c & Hc & Hw).
  apply strip_trimmed. rewrite strip_blank.
  rewrite (not_blank_elem c sentence Hc); [done|]. by apply word_not_space.
Qed.
End Found_trimmed.

Section Case.
Context {U : Unicode} {order : SetOrder}.

Lemma equal_ignoring_case_ascii keyword : ∀ w,
  forallb is_ascii keyword = true → forallb is_ascii w = true →
  equal_ignoring_case keyword w ↔ ascii_lower <$> keyword = ascii_lower <$> w.
Proof.
  unfold equal_ignoring_case.
  induction keyword as [|p keyword IH]; intros [|c w] Hk Hw; cbn in Hk, Hw.
  - split; [done|constructor].
  - split; [by inversion 1|done].
  - split; [by inversion 1|done].
  - apply andb_true_iff in Hk as [Hp Hk]. apply andb_true_iff in Hw as [Hc Hw].
    rewrite !fmap_cons. split.
    + inversion 1 as [|???? Hpc Hrest]; subst.
      unfold literal_ignore in Hpc. rewrite Hp, Hc in Hpc. cbn [andb] in Hpc.
      apply N.eqb_eq in Hpc. f_equal; [done|]. by apply IH.
    + intros [= Hpc Hrest]. constructor; [|by apply IH].
      unfold literal_ignore. rewrite Hp, Hc. cbn [andb]. by apply N.eqb_eq.
Qed.

Lemma forallb_app_inv {A} (f : A → bool) l1 l2 :
  forallb f (l1 ++ l2) = true → forallb f l1 = true ∧ forallb f l2 = true.
Proof. rewrite forallb_app. apply andb_true_iff. Qed.

Lemma whole_word_case_variant k1 k2 sentence :
  forallb is_ascii k1 = true → forallb is_ascii k2 = true →
  ascii_lower <$> k1 = ascii_lower <$> k2 →
  forallb is_ascii sentence = true →
  whole_word_occurrence k1 sentence → whole_word_occurrence k2 sentence.
Proof.
  intros Hk1 Hk2 Hsame Hs (l & w & r & -> & Hw & Hb).
  exists l, w, r. split; [done|]. split; [|done].
  apply forallb_app_inv in Hs as [_ Hs]. apply forallb_app_inv in Hs as [Hascii _].
  apply equal_ignoring_case_ascii; [done|done|].
  rewrite <- Hsame. by apply equal_ignoring_case_ascii.
Qed.

Lemma re_search_case_variant k1 k2 sentence :
  forallb is_ascii k1 = true → forallb is_ascii k2 = true →
  ascii_lower <$> k1 = ascii_lower <$> k2 →
  forallb is_ascii sentence = true →
  re_search (keyword_pattern k1) sentence true
  = re_search (keyword_pattern k2) sentence true.
Proof.
  intros Hk1 Hk2 Hsame Hs. rewrite !re_search_keyword. f_equal.
  apply bool_decide_ext. rewrite !search_keyword.
  split; by apply whole_word_case_variant.
Qed.

Lemma segment_from_Forall (P : N → Prop) suppressed after :
  ∀ before sentence skipping,
  Forall P sentence → Forall P after →
  Forall (Forall P) (segment_from suppressed before sentence skipping after).
Proof.
  induction after as [|c rest IH]; intros before sentence skipping Hs Ha.
  - cbn. constructor; [|done]. by apply Forall_reverse.
  - apply Forall_cons in Ha as [Hc Hrest]. cbn [segment_from].
    destruct (skipping && isspace c); [by apply IH|].
    destruct (splits_here _ _ _).
    + constructor; [by apply Forall_reverse|by apply IH].
    + apply IH; [by constructor|done].
Qed.

(** X8.  On a text of ASCII characters, two keywords of ASCII characters
    that differ in case only are found in the same sentences: with both
    in the list, both are keys of the returned mapping or neither is, and
    their counts are the same. *)
Theorem case_variants_count_alike text keywords k1 k2 :
  forallb is_ascii text = true →
  forallb is_ascii k1 = true → forallb is_ascii k2 = true →
  ascii_lower <$> k1 = ascii_lower <$> k2 →
  k1 ∈ keywords → k2 ∈ keywords →
  ∃ occurrences found,
    analyze_text_for_keywords text keywords = Some (occurrences, found)
    ∧ occurrences !! k1 = occurrences !! k2.
Proof.
  intros Htext Hk1 Hk2 Hsame Hin1 Hin2.
  destruct (analyze_spec text keywords) as (occ & found & Ha & Hocc & _).
  exists occ, (set_to_list found). split; [done|].
  rewrite !Hocc, (bool_decide_eq_true_2 _ Hin1), (bool_decide_eq_true_2 _ Hin2).
  assert (sentences_with k1 (segment text) = sentences_with k2 (segment text))
    as Hwith; [|unfold sentence_count; by rewrite Hwith].
  assert (Forall (Forall (λ c, is_ascii c = true)) (segment text)) as Hascii.
  { apply segment_from_Forall; [done|].
    apply Forall_forall. intros c Hc. rewrite forallb_forall in Htext.
    by apply Htext, list_elem_of_In. }
  clear Ha Hocc. unfold sentences_with.
  induction Hascii as [|s rest Hs _ IH]; [done|].
  rewrite !filter_cons, IH.
  assert (forallb is_ascii s = true) as Hs'.
  { apply forallb_forall. intros c Hc. rewrite Forall_forall in Hs.
    by apply Hs, list_elem_of_In. }
  rewrite (re_search_case_variant k1 k2 s) by done. done.
Qed.
End Case.

(** ** Reading a document *)

Lemma count_of_app p l1 l2 :
  count_of p (l1 ++ l2) = (count_of p l1 + count_of p l2)%nat.
Proof. unfold count_of. by rewrite filter_app, length_app. Qed.

Lemma count_of_cons p e l :
  count_of p (e :: l) = ((if p e then 1 else 0) + count_of p l)%nat.
Proof. unfold count_of. rewrite filter_cons. destruct (p e); by case_decide. Qed.

Lemma count_of_nil p : count_of p [] = O.
Proof. done. Qed.

Section Extraction.
Context {W : World}.

Lemma get_text_spec doc : ∀ acc text,
  get_text doc acc = inr text ↔
  ∃ pages, doc = inr <$> pages ∧ text = acc ++ concat pages.
Proof.
  induction doc as [|[e|page] doc IH]; intros acc text; cbn.
  - split.
    + intros [= <-]. exists []. by rewrite app_nil_r.
    + intros ([|??] & Hdoc & ->); [|done]. by rewrite app_nil_r.
  - split; [done|]. by intros ([|??] & Hdoc & _).
  - rewrite IH. split.
    + intros (pages & -> & ->). exists (page :: pages). cbn.
      by rewrite app_assoc.
    + intros ([|p pages] & Hdoc & ->); [done|]. injection Hdoc as -> ->.
      exists pages. cbn. by rewrite app_assoc.
Qed.

(** X9.  The extraction gives a text exactly when the document opens and
    every page gives its text, and the text is then the texts of the
    pages one after the other, in the order of the pages. *)
Theorem extract_text_pages pdf_content text :
  extract_text pdf_content = inr text ↔
  ∃ pages, fitz_open pdf_content = inr (inr <$> pages) ∧ text = concat pages.
Proof.
  unfold extract_text. destruct (fitz_open pdf_content) as [e|doc].
  - split; [done|]. by intros (? & ? & _).
  - rewrite get_text_spec. split.
    + intros (pages & -> & ->). by exists pages.
    + intros (pages & [= ->] & ->). by exists pages.
Qed.

Lemma try_read_events url tr :
  ∃ events, (try_read url tr).2 = tr ++ events
    ∧ count_of is_request events = 1%nat
    ∧ (count_of is_open events ≤ 1)%nat
    ∧ count_of is_log events = O
    ∧ count_of is_retry_sleep events = O
    ∧ count_of is_pause events = O.
Proof.
  unfold try_read. destruct (urlopen tr url) as [e|content]; cbn.
  - exists [Request url]. rewrite !count_of_cons, !count_of_nil. cbn.
    split_and!; [done|lia..].
  - exists [Request url; Open_document content].
    rewrite !count_of_cons, !count_of_nil. cbn. split_and!; [done|lia..].
Qed.

(** X10.  Reading a URL only adds to the trace.  It makes one request, or
    two with one sleep of [RETRY_DELAY] seconds between them, never more
    than [MAX_RETRIES]; it opens a document at most once for each request;
    it does not pause; and it writes a line to the error log, one line,
    exactly when it returns nothing. *)
Theorem read_pdf_content_effects url tr :
  ∃ events,
    (read_pdf_content url tr).2 = tr ++ events
    ∧ (1 ≤ count_of is_request events ≤ MAX_RETRIES)%nat
    ∧ S (count_of is_retry_sleep events) = count_of is_request events
    ∧ (count_of is_open events ≤ count_of is_request events)%nat
    ∧ count_of is_pause events = O
    ∧ count_of is_log events
      = (if read_failed (read_pdf_content url tr).1 then 1 else 0)%nat.
Proof.
  rewrite read_pdf_content_cases.
  destruct (try_read_events url tr) as (ev1 & Htr1 & Hreq1 & Hopen1 & Hlog1 & Hsl1 & Hp1).
  destruct (try_read url tr) as [[e1|text1] tr1]; cbn [snd] in Htr1; subst tr1.
  - destruct (try_read_events url ((tr ++ ev1) ++ [Sleep RETRY_DELAY]))
      as (ev2 & Htr2 & Hreq2 & Hopen2 & Hlog2 & Hsl2 & Hp2).
    destruct (try_read url ((tr ++ ev1) ++ [Sleep RETRY_DELAY]))
      as [[e2|text2] tr2]; cbn [snd] in Htr2; subst tr2; cbn [fst snd read_failed].
    + exists (ev1 ++ [Sleep RETRY_DELAY] ++ ev2 ++ [Log_error url (failure_message e2)]).
      rewrite !count_of_app, Hreq1, Hreq2, Hlog1, Hlog2, Hsl1, Hsl2, Hp1, Hp2.
      split_and!; [by rewrite <- !app_assoc|..];
        rewrite ?count_of_cons, ?count_of_nil; cbn; unfold MAX_RETRIES; lia.
    + exists (ev1 ++ [Sleep RETRY_DELAY] ++ ev2).
      rewrite !count_of_app, Hreq1, Hreq2, Hlog1, Hlog2, Hsl1, Hsl2, Hp1, Hp2.
      split_and!; [by rewrite <- !app_assoc|..];
        rewrite ?count_of_cons, ?count_of_nil; cbn; unfold MAX_RETRIES; lia.
  - exists ev1. cbn [fst snd read_failed].
    rewrite Hreq1, Hlog1, Hsl1, Hp1. split_and!; [done|..]; cbn; unfold MAX_RETRIES; lia.
Qed.

(** X11.  A failure of the first attempt, of the download or of the
    extraction, that the second attempt does not repeat leaves no line in
    the error log: after one sleep the text of the second attempt is
    returned. *)
Theorem second_attempt_recovers url tr e content text :
  (try_read url tr).1 = inl e →
  urlopen ((try_read url tr).2 ++ [Sleep RETRY_DELAY]) url = inr content →
  extract_text content = inr text →
  read_pdf_content url tr
  = (Some text,
     (try_read url tr).2
       ++ [Sleep RETRY_DELAY; Request url; Open_document content]).
Proof.
  intros Hfirst Hsecond Htext. rewrite read_pdf_content_cases.
  destruct (try_read url tr) as [r tr1]. cbn [fst snd] in *. subst r.
  unfold try_read. rewrite Hsecond, Htext. by rewrite <- app_assoc.
Qed.
End Extraction.

(** ** A whole run *)

Section Whole_run.
Context {U : Unicode} {order : SetOrder} {W : World}.

Lemma display_name_resolved company_names index url :
  match company_names with
  | Some names =>
      if bool_decide (names ≠ []) && (index <? length names)%nat
      then default (extract_filename url) (names !! index)
      else extract_filename url
  | None => extract_filename url
  end = resolved_name company_names index url.
Proof.
  destruct company_names as [names|]; [|reflexivity].
  change (resolved_name (Some names) index url)
    with (default (extract_filename url) (names !! index)).
  destruct (names !! index) as [name|] eqn:Hname.
  - apply lookup_lt_Some in Hname as Hlt.
    rewrite bool_decide_eq_true_2 by (intros ->; cbn in Hlt; lia).
    by rewrite (proj2 (Nat.ltb_lt _ _) Hlt).
  - by destruct (bool_decide _ && _).
Qed.

(** One turn of the loop of [process_filings]. *)
Lemma process_urls_cons index url rest keywords company_names results all tr :
  ∃ results1 all1,
    process_urls index (url :: rest) keywords company_names results all tr
    = process_urls (S index) rest keywords company_names results1 all1
        ((read_pdf_content url tr).2 ++ [Sleep 1])
    ∧ match (read_pdf_content url tr).1 with
      | Some ((_ :: _) as text) =>
          ∃ occurrences found,
            analyze_text_for_keywords text keywords = Some (occurrences, found)
            ∧ results1
              = results ++
                  [if bool_decide (occurrences ≠ ∅)
                   then keyword_row url
                          (resolved_name company_names index url) occurrences
                   else empty_row url (resolved_name company_names index url)]
            ∧ all1 = all ∪ list_to_set found
      | _ => results1 = results ∧ all1 = all
      end.
Proof.
  cbn [process_urls]. rewrite display_name_resolved.
  destruct (read_pdf_content url tr) as [[[|c text]|] tr1]; cbn [fst snd].
  - by exists results, all.
  - destruct (analyze_total (c :: text) keywords) as [[occ found] Ha].
    rewrite Ha. cbn [mbind option_bind]. eexists _, _. split; [done|].
    by exists occ, found.
  - by exists results, all.
Qed.



Lemma reads_cons url rest tr :
  reads (url :: rest) tr
  = (read_pdf_content url tr).1
      :: reads rest ((read_pdf_content url tr).2 ++ [Sleep 1]).
Proof. cbn [reads]. by destruct (read_pdf_content url tr). Qed.

Lemma documents_from_cons index url rest tr :
  documents_from index (url :: rest) tr
  = (index, url, (read_pdf_content url tr).1)
      :: documents_from (S index) rest ((read_pdf_content url tr).2 ++ [Sleep 1]).
Proof. cbn [documents_from]. by destruct (read_pdf_content url tr). Qed.

Lemma process_urls_sentences keywords company_names urls :
  ∀ index results all tr,
  ∃ results' all' tr',
    process_urls index urls keywords company_names results all tr
    = Some (results', all', tr')
    ∧ ∀ s, s ∈ all' ↔
        s ∈ all
        ∨ ∃ c text occurrences found,
            Some (c :: text) ∈ reads urls tr
            ∧ analyze_text_for_keywords (c :: text) keywords
              = Some (occurrences, found)
            ∧ s ∈ found.
Proof.
  induction urls as [|url rest IH]; intros index results all tr.
  - exists results, all, tr. split; [done|]. intros s. split; [by left|].
    intros [?|(? & ? & ? & ? & Hin & _)]; [done|]. by apply elem_of_nil in Hin.
  - destruct (process_urls_cons index url rest keywords company_names
                results all tr) as (results1 & all1 & -> & Hstep).
    destruct (IH (S index) results1 all1
                ((read_pdf_content url tr).2 ++ [Sleep 1]))
      as (results' & all' & tr' & -> & Hall).
    exists results', all', tr'. split; [done|]. intros s.
    rewrite Hall, reads_cons. clear Hall IH.
    destruct (read_pdf_content url tr).1 as [[|c text]|].
    + destruct Hstep as [_ ->]. set_solver.
    + destruct Hstep as (occ & found & Ha & _ & ->).
      rewrite elem_of_union, elem_of_list_to_set. split.
      * intros [[?|Hs]|(c' & text' & occ' & found' & Hin & Ha' & Hs)]; [by left| |].
        -- right. exists c, text, occ, found. split_and!; [by left|done|done].
        -- right. exists c', text', occ', found'. split_and!; [by right|done|done].
      * intros [?|(c' & text' & occ' & found' & Hin & Ha' & Hs)]; [by left; left|].
        apply elem_of_cons in Hin as [[= -> ->]|Hin].
        -- left. right. rewrite Ha in Ha'. by injection Ha' as <- <-.
        -- right. by exists c', text', occ', found'.
    + destruct Hstep as [_ ->]. set_solver.
Qed.

(** X13.  The sentences a run returns are the sentences the matcher returns
    for the documents that gave text, put together. *)
Theorem run_wide_sentences_union url_file keywords company_names tr :
  ∃ results sentences tr',
    process_filings url_file keywords company_names tr
    = Some (results, sentences, tr')
    ∧ ∀ s, s ∈ sentences ↔
        ∃ c text occurrences found,
          Some (c :: text) ∈ reads (urls_of_file url_file) tr
          ∧ analyze_text_for_keywords (c :: text) keywords
            = Some (occurrences, found)
          ∧ s ∈ found.
Proof.
  unfold process_filings.
  destruct (process_urls_sentences keywords company_names
              (urls_of_file url_file) 0 [] ∅ tr)
    as (results & all & tr' & -> & Hall).
  exists results, (set_to_list all), tr'. split; [done|]. intros s.
  rewrite set_to_list_perm, elem_of_elements, Hall. set_solver.
Qed.
End Whole_run.

Section Rows.
Context {U : Unicode} {order : SetOrder} {W : World}.

Lemma row_columns (url name : str) (occurrences : gmap str nat) :
  occurrences !! cp "URL" = None → occurrences !! cp "Name" = None →
  (if bool_decide (occurrences ≠ ∅) then keyword_row url name occurrences
   else empty_row url name) !! cp "URL" = Some (Text url)
  ∧ (if bool_decide (occurrences ≠ ∅) then keyword_row url name occurrences
     else empty_row url name) !! cp "Name" = Some (Text name).
Proof.
  intros Hurl Hname.
  assert (cp "URL" ≠ cp "Name") as Hne by (by vm_compute).
  destruct (bool_decide _); unfold keyword_row, empty_row.
  - rewrite !lookup_union, !lookup_fmap, Hurl, Hname. cbn.
    rewrite lookup_insert_eq, lookup_insert_ne, lookup_singleton_eq by done.
    done.
  - rewrite lookup_insert_eq, lookup_insert_ne, lookup_insert_eq by done. done.
Qed.

Lemma analyze_not_keyword text keywords occurrences found k :
  analyze_text_for_keywords text keywords = Some (occurrences, found) →
  k ∉ keywords → occurrences !! k = None.
Proof.
  intros Ha Hk.
  destruct (analyze_spec text keywords) as (occ & found' & Ha' & Hocc & _).
  rewrite Ha in Ha'. injection Ha' as -> _.
  by rewrite Hocc, (bool_decide_eq_false_2 _ Hk).
Qed.

Lemma process_urls_rows keywords company_names urls :
  cp "URL" ∉ keywords → cp "Name" ∉ keywords →
  ∀ index results all tr,
  ∃ new all' tr',
    process_urls index urls keywords company_names results all tr
    = Some (results ++ new, all', tr')
    ∧ (λ row, (row !! cp "URL", row !! cp "Name")) <$> new
      = (λ d, (Some (Text d.1.2),
               Some (Text (resolved_name company_names d.1.1 d.1.2))))
          <$> filter (λ d, has_text d.2 = true) (documents_from index urls tr).
Proof.
  intros Hurl Hname.
  induction urls as [|url rest IH]; intros index results all tr.
  - exists [], all, tr. by rewrite app_nil_r.
  - destruct (process_urls_cons index url rest keywords company_names
                results all tr) as (results1 & all1 & -> & Hstep).
    destruct (IH (S index) results1 all1
                ((read_pdf_content url tr).2 ++ [Sleep 1]))
      as (new & all' & tr' & -> & Hnew).
    rewrite documents_from_cons, filter_cons. cbn [snd].
    destruct (read_pdf_content url tr).1 as [[|c text]|].
    + destruct Hstep as [-> _]. exists new, all', tr'.
      case_decide; [done|]. done.
    + destruct Hstep as (occ & found & Ha & -> & _).
      eexists (_ :: new), all', tr'. rewrite <- app_assoc. split; [done|].
      case_decide; [|done]. rewrite !fmap_cons, Hnew. cbn [fst snd]. f_equal.
      destruct (row_columns url (resolved_name company_names index url) occ)
        as [-> ->]; [by eapply analyze_not_keyword..|]. done.
    + destruct Hstep as [-> _]. exists new, all', tr'.
      case_decide; [done|]. done.
Qed.

(** X14.  With no keyword called [URL] or [Name], the rows of a run are, in
    the order of the URL file, one for each URL that gave text, with that
    URL in the column [URL] and, in the column [Name], the company name at
    the index of the URL in the file when there is one and the file name
    of the URL otherwise. *)
Theorem rows_follow_urls url_file keywords company_names tr :
  cp "URL" ∉ keywords → cp "Name" ∉ keywords →
  ∃ results sentences tr',
    process_filings url_file keywords company_names tr
    = Some (results, sentences, tr')
    ∧ (λ row, (row !! cp "URL", row !! cp "Name")) <$> results
      = (λ d, (Some (Text d.1.2),
               Some (Text (resolved_name company_names d.1.1 d.1.2))))
          <$> filter (λ d, has_text d.2 = true)
                (documents_from 0 (urls_of_file url_file) tr).
Proof.
  intros Hurl Hname. unfold process_filings.
  destruct (process_urls_rows keywords company_names (urls_of_file url_file)
              Hurl Hname 0 [] ∅ tr) as (new & all & tr' & -> & Hnew).
  by exists new, (set_to_list all), tr'.
Qed.

(** X15.  A keyword called [URL] that is found in a document takes the
    place of the URL in the row of the document. *)
Theorem keyword_takes_column (url name : str) text keywords :
  cp "URL" ∈ keywords →
  ∃ sentences occurrences found,
    re_split sentence_pattern text = Some sentences
    ∧ analyze_text_for_keywords text keywords = Some (occurrences, found)
    ∧ keyword_row url name occurrences !! cp "URL"
      = if (0 <? sentence_count (cp "URL") sentences)%nat
        then Some (Count (sentence_count (cp "URL") sentences))
        else Some (Text url).
Proof.
  intros Hin.
  destruct (analyze_spec text keywords) as (occ & found & Ha & Hocc & _).
  exists (segment text), occ, (set_to_list found).
  split_and!; [apply re_split_sentences|done|].
  unfold keyword_row. rewrite lookup_union, lookup_fmap, Hocc.
  rewrite (bool_decide_eq_true_2 _ Hin). cbn [andb].
  destruct (0 <? _)%nat; cbn; [done|]. by rewrite lookup_insert_eq.
Qed.
End Rows.

(** ** [main] and the files it writes *)

Section Main.
Context {U : Unicode} {order : SetOrder} {W : World} {F : Files}.


(** X16.  Without keywords [main] ends at once: when the keyword file
    cannot be read, with one line in the error log; when all its lines are
    blank, with none.  Nothing is requested and no file is written.  With
    a keyword in the file, [main] goes on. *)
Theorem main_without_keywords tr :
  (∀ err, read_lines KEYWORDS_FILE = inl err →
     main tr
     = (Exit_no_keywords,
        tr ++ [Log_error (cp "N/A")
                 (cp "Error reading keywords: " ++ error_text err)], []))
  ∧ (∀ lines, read_lines KEYWORDS_FILE = inr lines →
       forallb blank lines = true → main tr = (Exit_no_keywords, tr, []))
  ∧ (∀ lines, read_lines KEYWORDS_FILE = inr lines →
       forallb blank lines = false → (main tr).1.1 ≠ Exit_no_keywords).
Proof.
  unfold main, extract_keywords. split_and!.
  - by intros err ->.
  - intros lines -> Hblank.
    assert (stripped_lines lines = []) as ->; [|done].
    apply stripped_lines_nil, Forall_forall. intros line Hin.
    rewrite forallb_forall in Hblank. by apply Hblank, list_elem_of_In.
  - intros lines -> Hblank.
    rewrite bool_decide_eq_false_2.
    + destruct (read_company_names _ _) as [names tr2].
      destruct (process_filings_from _ _ _ _) as [[[? ?] ?]|]; [|done].
      destruct (save_results _ _ _ _ _). by destruct (save_sentences_to_file _ _ _ _).
    + intros Hnil. apply stripped_lines_nil in Hnil.
      apply not_true_iff_false in Hblank. apply Hblank.
      apply forallb_forall. intros line Hin. rewrite Forall_forall in Hnil.
      by apply Hnil, list_elem_of_In.
Qed.


Lemma sentence_lines_nil sentences :
  sentence_lines sentences = [] → sentences = [].
Proof. destruct sentences as [|[|??] ?]; done. Qed.

(** X18.  The files [main] writes: the spreadsheet, or the spreadsheet and
    then the CSV file with the same rows, or neither, and after them the
    sentence file or not.  The CSV file is never written without the
    spreadsheet, and no file is written without a row or a sentence in
    it. *)
Theorem main_outputs tr :
  ∃ tables texts,
    (main tr).2 = tables ++ texts
    ∧ (tables = []
       ∨ ∃ rows, rows ≠ []
           ∧ (tables = [Excel_written OUTPUT_EXCEL_FILE rows]
              ∨ tables = [Excel_written OUTPUT_EXCEL_FILE rows;
                          Csv_written OUTPUT_CSV_FILE rows]))
    ∧ (texts = []
       ∨ ∃ content, content ≠ []
           ∧ texts = [Text_written SENTENCES_OUTPUT_FILE content]).
Proof.
  unfold main. destruct (extract_keywords KEYWORDS_FILE tr) as [keywords tr1].
  destruct (bool_decide (keywords = [])).
  { exists [], []. split_and!; [done|by left..]. }
  destruct (read_company_names _ _) as [names tr2].
  destruct (process_filings_from _ _ _ _) as [[[results sentences] tr3]|].
  2: { exists [], []. split_and!; [done|by left..]. }
  assert (∃ tables,
            (save_results results OUTPUT_EXCEL_FILE OUTPUT_CSV_FILE tr3 []).2
            = tables
            ∧ (tables = []
               ∨ ∃ rows, rows ≠ []
                   ∧ (tables = [Excel_written OUTPUT_EXCEL_FILE rows]
                      ∨ tables = [Excel_written OUTPUT_EXCEL_FILE rows;
                                  Csv_written OUTPUT_CSV_FILE rows])))
    as (tables & Htables & Hshape).
  { unfold save_results.
    destruct (bool_decide_reflect (results = [])) as [|Hne]; [by eexists; eauto|].
    destruct (to_excel _ _); [by eexists; eauto|].
    destruct (to_csv _ _); eexists; (split; [done|]); right; exists results; eauto. }
  destruct (save_results _ _ _ _ _) as [tr4 out1]. cbn [snd] in Htables. subst out1.
  unfold save_sentences_to_file.
  destruct (bool_decide_reflect (sentences = [])) as [|Hne].
  { exists tables, []. cbn. rewrite app_nil_r. split_and!; [done|done|by left]. }
  destruct (write_text _ _).
  { exists tables, []. cbn. rewrite app_nil_r. split_and!; [done|done|by left]. }
  eexists tables, _. cbn. split_and!; [done|done|]. right.
  eexists. split; [|done]. intros Hnil. by apply sentence_lines_nil in Hnil.
Qed.

(** X19.  The sentence file holds one line feed for each sentence besides
    the line feeds of the sentences themselves: it has one line for each
    sentence exactly when no sentence holds a line feed. *)
Theorem sentence_lines_count sentences :
  length (filter (λ c : N, c = 10%N) (sentence_lines sentences))
  = (length sentences + length (filter (λ c : N, c = 10%N) (concat sentences)))%nat.
Proof.
  unfold sentence_lines. induction sentences as [|s rest IH]; [done|].
  cbn [fmap list_fmap concat length]. rewrite !filter_app, !length_app, IH.
  rewrite filter_cons, filter_nil. case_decide; [|done]. cbn. lia.
Qed.
End Main.

(** ** Further concrete runs *)

(** X4 on a text without a full stop. *)
Lemma unpunctuated_text_is_one_sentence_example :
  re_split (U := basic_latin) sentence_pattern (cp "no stop in sight")
  = Some [cp "no stop in sight"].
Proof.
  apply (unpunctuated_text_is_one_sentence (U := basic_latin)
           (cp "no stop in sight")).
  left. by repeat constructor.
Defined.

(** X7 with a character database without characters outside ASCII. *)
Lemma matched_sentences_trimmed_example :
  ∃ occurrences found,
    analyze_text_for_keywords (U := basic_latin) (order := sorted_order)
      (cp "  The cat sat.  A dog ran. ") [cp "cat"]
    = Some (occurrences, found)
    ∧ Forall (trimmed (U := basic_latin)) found.
Proof.
  apply (matched_sentences_trimmed (U := basic_latin) (order := sorted_order)
           (cp "  The cat sat.  A dog ran. ") [cp "cat"]).
  intros c Hc. discriminate Hc.
Defined.

(** X8 on [cat] and [CAT]. *)
Lemma case_variants_count_alike_example :
  ∃ occurrences found,
    analyze_text_for_keywords (U := basic_latin) (order := sorted_order)
      (cp "The Cat sat. No dog.") [cp "cat"; cp "CAT"]
    = Some (occurrences, found)
    ∧ occurrences !! cp "cat" = occurrences !! cp "CAT".
Proof.
  apply (case_variants_count_alike (U := basic_latin) (order := sorted_order)
           (cp "The Cat sat. No dog.") [cp "cat"; cp "CAT"]
           (cp "cat") (cp "CAT")); try reflexivity.
  - apply list_elem_of_here.
  - apply list_elem_of_further, list_elem_of_here.
Defined.

(** X11 on a connection that is reset once. *)
Lemma second_attempt_recovers_example :
  read_pdf_content (W := flaky) sample_url []
  = (Some (cp "The cat sat."),
     (try_read (W := flaky) sample_url []).2
       ++ [Sleep RETRY_DELAY; Request sample_url;
           Open_document [Byte.x25; Byte.x50; Byte.x44; Byte.x46]]).
Proof.
  apply (second_attempt_recovers (W := flaky) sample_url []
           (cp "connection reset")
           [Byte.x25; Byte.x50; Byte.x44; Byte.x46] (cp "The cat sat."));
    reflexivity.
Defined.

(** X14 on two documents and one company name. *)
Lemma rows_follow_urls_example :
  ∃ results sentences tr',
    process_filings (U := basic_latin) (order := sorted_order)
      (W := cat_report) [sample_url; other_url] [cp "cat"]
      (Some [cp "Acme"]) []
    = Some (results, sentences, tr')
    ∧ (λ row, (row !! cp "URL", row !! cp "Name")) <$> results
      = (λ d, (Some (Text d.1.2),
               Some (Text (resolved_name (W := cat_report)
                             (Some [cp "Acme"]) d.1.1 d.1.2))))
          <$> filter (λ d, has_text d.2 = true)
                (documents_from (W := cat_report) 0
                   (urls_of_file (U := basic_latin) [sample_url; other_url])
                   []).
Proof.
  apply (rows_follow_urls (U := basic_latin) (order := sorted_order)
           (W := cat_report) [sample_url; other_url] [cp "cat"]
           (Some [cp "Acme"]) []).
  - intros Hin. apply list_elem_of_singleton in Hin. discriminate Hin.
  - intros Hin. apply list_elem_of_singleton in Hin. discriminate Hin.
Defined.

(** X15 on a text that says [url] twice. *)
Lemma keyword_takes_column_example :
  ∃ sentences occurrences found,
    re_split (U := basic_latin) sentence_pattern
      (cp "See the url. The URL is long.")
    = Some sentences
    ∧ analyze_text_for_keywords (U := basic_latin) (order := sorted_order)
        (cp "See the url. The URL is long.") [cp "URL"]
      = Some (occurrences, found)
    ∧ keyword_row sample_url (cp "Acme") occurrences !! cp "URL"
      = if (0 <? sentence_count (U := basic_latin) (cp "URL") sentences)%nat
        then Some (Count (sentence_count (U := basic_latin) (cp "URL")
                            sentences))
        else Some (Text sample_url).
Proof.
  apply (keyword_takes_column (U := basic_latin) (order := sorted_order)
           sample_url (cp "Acme") (cp "See the url. The URL is long.")
           [cp "URL"]).
  apply list_elem_of_here.
Defined.

(** X16 where no file can be read. *)
Lemma main_without_keywords_example :
  main (U := basic_latin) (order := sorted_order) (W := offline)
    (F := no_files) []
  = (Exit_no_keywords,
     [] ++ [Log_error (cp "N/A")
              (cp "Error reading keywords: "
                 ++ error_text (File_not_found (cp "No such file or directory")))],
     []).
Proof.
  apply (proj1 (main_without_keywords (U := basic_latin)
                  (order := sorted_order) (W := offline) (F := no_files) [])).
  reflexivity.
Defined.
